(** * Spelling-bee puzzle generator: a shallow embedding of [main.go]

    The Go program enumerates every combination of [num_letters] distinct
    letters, rotates each combination so that every letter is once the
    mandatory first letter, matches a pre-filtered dictionary against each
    rotation, and writes one file per accepted puzzle.

    Go strings are byte sequences: they are modelled as [list ascii].  A
    [range] loop over a string decodes UTF-8 and yields runes (code points,
    modelled as [N]); indexing and slicing work on bytes.  A Go [int] is a
    64-bit two's complement integer, modelled as [Z] with its wrap-around.
    Channels carry finite sequences: a stage that sends on a channel and then
    closes it is modelled by the list of the values it sends. *)

From Stdlib Require Import ZArith NArith Lia List Ascii String DecimalString.
From stdpp Require Import gmap strings list fin_maps sorting.

Local Open Scope N_scope.

(** ** Outcomes of a run *)

(** A Go function either runs to completion, panics (index out of range),
    ends the process through [log.Fatalf], or does not return within the
    fuel its model was given. *)
Inductive result (A : Type) : Type :=
| Done (a : A)
| Panic
| Fatal
| OutOfFuel.
Arguments Done {A} a.
Arguments Panic {A}.
Arguments Fatal {A}.
Arguments OutOfFuel {A}.

#[global] Instance result_ret : MRet result := @Done.
#[global] Instance result_bind : MBind result := λ A B f m,
  match m with
  | Done a => f a
  | Panic => Panic
  | Fatal => Fatal
  | OutOfFuel => OutOfFuel
  end.

(** ** Strings, bytes and runes *)

(** A string literal, as its bytes. *)
Definition str (s : String.string) : list ascii := list_ascii_of_string s.

(** [s[i]]: a byte of the string, a run-time panic out of range. *)
Definition index (s : list ascii) (i : nat) : result ascii :=
  match s !! i with
  | Some b => Done b
  | None => Panic
  end.

Module utf8.

Definition RuneError : N := 0xFFFD.
Definition RuneSelf : N := 0x80.
Definition MaxRune : N := 0x10FFFF.

(** The table [first] of Go's [unicode/utf8], for the lead bytes of
    multi-byte sequences: the size of the sequence and the accepted range
    of its second byte.  [None] for ASCII and for invalid lead bytes. *)
Definition first (s0 : N) : option (nat * N * N) :=
  if s0 <? 0xC2 then None
  else if s0 <=? 0xDF then Some (2%nat, 0x80, 0xBF)
  else if s0 =? 0xE0 then Some (3%nat, 0xA0, 0xBF)
  else if s0 <=? 0xEC then Some (3%nat, 0x80, 0xBF)
  else if s0 =? 0xED then Some (3%nat, 0x80, 0x9F)
  else if s0 <=? 0xEF then Some (3%nat, 0x80, 0xBF)
  else if s0 =? 0xF0 then Some (4%nat, 0x90, 0xBF)
  else if s0 <=? 0xF3 then Some (4%nat, 0x80, 0xBF)
  else if s0 =? 0xF4 then Some (4%nat, 0x80, 0x8F)
  else None.

Definition continuation (b : N) : bool := (0x80 <=? b) && (b <=? 0xBF).

(** [utf8.DecodeRuneInString]: the first rune of [s] and its width in
    bytes; an invalid encoding is [RuneError] of width 1. *)
Definition DecodeRuneInString (s : list ascii) : N * nat :=
  match s with
  | [] => (RuneError, 0%nat)
  | b0 :: t =>
    let s0 := N_of_ascii b0 in
    if s0 <? RuneSelf then (s0, 1%nat)
    else
      match first s0 with
      | None => (RuneError, 1%nat)
      | Some (sz, lo, hi) =>
        if (length s <? sz)%nat then (RuneError, 1%nat)
        else
          match t with
          | [] => (RuneError, 1%nat)
          | b1 :: t1 =>
            let s1 := N_of_ascii b1 in
            if (s1 <? lo) || (hi <? s1) then (RuneError, 1%nat)
            else if (sz <=? 2)%nat then
              (N.lor (N.shiftl (N.land s0 0x1F) 6) (N.land s1 0x3F), 2%nat)
            else
              match t1 with
              | [] => (RuneError, 1%nat)
              | b2 :: t2 =>
                let s2 := N_of_ascii b2 in
                if negb (continuation s2) then (RuneError, 1%nat)
                else if (sz <=? 3)%nat then
                  (N.lor (N.lor (N.shiftl (N.land s0 0x0F) 12)
                                (N.shiftl (N.land s1 0x3F) 6))
                         (N.land s2 0x3F), 3%nat)
                else
                  match t2 with
                  | [] => (RuneError, 1%nat)
                  | b3 :: _ =>
                    let s3 := N_of_ascii b3 in
                    if negb (continuation s3) then (RuneError, 1%nat)
                    else
                      (N.lor (N.lor (N.lor (N.shiftl (N.land s0 0x07) 18)
                                           (N.shiftl (N.land s1 0x3F) 12))
                                    (N.shiftl (N.land s2 0x3F) 6))
                             (N.land s3 0x3F), 4%nat)
                  end
              end
          end
      end
  end.

Definition ValidRune (r : N) : bool :=
  (r <? 0xD800) || ((0xDFFF <? r) && (r <=? MaxRune)).

Definition byte (n : N) : ascii := ascii_of_N (n mod 256).

(** [utf8.AppendRune]: the UTF-8 encoding of a code point; what is not a
    valid code point is encoded as [RuneError]. *)
Definition EncodeRune (r : N) : list ascii :=
  if r <=? 0x7F then [byte r]
  else if r <=? 0x7FF then
    [byte (N.lor 0xC0 (N.shiftr r 6)); byte (N.lor 0x80 (N.land r 0x3F))]
  else
    let r := if ValidRune r then r else RuneError in
    if r <=? 0xFFFF then
      [byte (N.lor 0xE0 (N.shiftr r 12));
       byte (N.lor 0x80 (N.land (N.shiftr r 6) 0x3F));
       byte (N.lor 0x80 (N.land r 0x3F))]
    else
      [byte (N.lor 0xF0 (N.shiftr r 18));
       byte (N.lor 0x80 (N.land (N.shiftr r 12) 0x3F));
       byte (N.lor 0x80 (N.land (N.shiftr r 6) 0x3F));
       byte (N.lor 0x80 (N.land r 0x3F))].

End utf8.

(** [for _, r := range s]: the runes of [s], decoded one after the other.
    Every step consumes at least one byte, so [length s] steps are enough. *)
Fixpoint runes_fuel (fuel : nat) (s : list ascii) : list N :=
  match fuel with
  | O => []
  | S fuel' =>
    match s with
    | [] => []
    | _ :: _ =>
      let '(r, w) := utf8.DecodeRuneInString s in
      r :: runes_fuel fuel' (drop w s)
    end
  end.

Definition runes (s : list ascii) : list N := runes_fuel (length s) s.

(** [string(r)] for an integer [r]: the UTF-8 encoding of the code point. *)
Definition string_of_rune (r : N) : list ascii := utf8.EncodeRune r.

(** [byte(r)]: truncation to the low eight bits. *)
Definition byte_of_rune (r : N) : ascii := utf8.byte r.

(** ** The [strings] package *)

Module strings.

Fixpoint HasPrefix (s prefix : list ascii) : bool :=
  match prefix, s with
  | [], _ => true
  | _ :: _, [] => false
  | a :: prefix', b :: s' =>
    if decide (a = b) then HasPrefix s' prefix' else false
  end.

(** [strings.Contains]: [substr] occurs in [s] at some byte offset. *)
Fixpoint Contains (s substr : list ascii) : bool :=
  HasPrefix s substr ||
  match s with
  | [] => false
  | _ :: s' => Contains s' substr
  end.

(** [strings.ContainsRune], through [strings.IndexRune]: a byte search for
    an ASCII rune, a search among the decoded runes for [RuneError],
    nothing for an invalid rune, and a search for the encoding else. *)
Definition ContainsRune (s : list ascii) (r : N) : bool :=
  if r <? utf8.RuneSelf then
    existsb (λ b, N_of_ascii b =? r) s
  else if r =? utf8.RuneError then
    existsb (λ r', r' =? utf8.RuneError) (runes s)
  else if negb (utf8.ValidRune r) then false
  else Contains s (utf8.EncodeRune r).

End strings.

(** ** Go's [int] *)

Definition int_min : Z := (- 2 ^ 63)%Z.
Definition int_max : Z := (2 ^ 63 - 1)%Z.

(** Two's complement wrap-around of a 64-bit signed integer. *)
Definition int_wrap (z : Z) : Z := ((z + 2 ^ 63) mod 2 ^ 64 - 2 ^ 63)%Z.
Definition int_add (a b : Z) : Z := int_wrap (a + b).
Definition int_sub (a b : Z) : Z := int_wrap (a - b).

(** ** The program *)

Definition alphabet : list ascii := str "abcdefghijklmnopqrstuvwxyz".

(** A loop over a sequence whose body sends values on the output channel:
    the values sent, in order. *)
Fixpoint for_each {A B : Type} (body : A → result (list B)) (l : list A)
  : result (list B) :=
  match l with
  | [] => Done []
  | a :: l' =>
    out ← body a;
    outs ← for_each body l';
    Done (out ++ outs)
  end.

(** [genAllStrings], the values sent on [out] before it is closed.  The
    recursive call runs as a goroutine that sends on the channel [ch]; the
    loop [for rest := range ch] receives what it sends, in order. *)
Fixpoint genAllStrings (fuel : nat) (n : Z) : result (list (list ascii)) :=
  match fuel with
  | O => OutOfFuel
  | S fuel' =>
    for_each (λ c,
      if (n =? 1)%Z then Done [string_of_rune c]
      else
        ch ← genAllStrings fuel' (int_sub n 1);
        for_each (λ rest,
          rest0 ← index rest 0;
          if N_of_ascii (byte_of_rune c) <? N_of_ascii rest0
          then Done [string_of_rune c ++ rest]
          else Done []) ch)
      (runes alphabet)
  end.


(** ** Combinations, for the specification of the generator *)

(** The binomial coefficient, by Pascal's rule. *)
Fixpoint binom (n k : nat) : nat :=
  match n, k with
  | _, O => 1
  | O, S _ => 0
  | S n', S k' => binom n' k' + binom n' k
  end%nat.

(** The sublists of [l] of length [k], in lexicographic order of the
    positions they keep. *)
Fixpoint combs (l : list ascii) (k : nat) : list (list ascii) :=
  match l with
  | [] => match k with O => [[]] | S _ => [] end
  | c :: l' =>
    match k with
    | O => [[]]
    | S k' => map (cons c) (combs l' k') ++ combs l' k
    end
  end.

(** Alphabet order on letters: the order of their byte values. *)
Definition letter_lt (a b : ascii) : Prop := N_of_ascii a < N_of_ascii b.

Definition blt (a b : ascii) : bool := N_of_ascii a <? N_of_ascii b.

(** The test [rest[0] > byte(c)] on a non-empty [rest]. *)
Definition head_after (c : ascii) (rest : list ascii) : bool :=
  match rest with
  | b :: _ => blt c b
  | [] => false
  end.

(** What one level of [genAllStrings] computes over an alphabet [A] of
    ASCII letters, level [0] standing for [n = 1]. *)
Fixpoint gen_level (A : list ascii) (k : nat) : list (list ascii) :=
  match k with
  | O => map (λ c, [c]) A
  | S k' =>
    flat_map (λ c, map (cons c) (List.filter (head_after c) (gen_level A k'))) A
  end.

(** A string of ASCII bytes only. *)
Definition ascii_only (s : list ascii) : Prop :=
  Forall (λ b, N_of_ascii b < 128) s.


(** ** The rotation expander *)

(** The loop [for i := 0; i < len(s); i++] of [rotate], entered at [i]: the
    values it sends.  The condition [i < len(s)] keeps both slices [s[:i]]
    and [s[i:]] in range, and ends the loop before the fuel does when the
    fuel is more than [len(s) - i]. *)
Fixpoint rotate_loop (fuel : nat) (s : list ascii) (i : nat)
  : list (list ascii) :=
  match fuel with
  | O => []
  | S fuel' =>
    if (i <? length s)%nat then
      let first := take i s in
      let rest := drop i s in
      (rest ++ first) :: rotate_loop fuel' s (S i)
    else []
  end.

Definition rotations (s : list ascii) : list (list ascii) :=
  rotate_loop (S (length s)) s 0.

(** [rotate]: what it sends on [out] for the strings received on [in]. *)
Definition rotate (inp : list (list ascii)) : list (list ascii) :=
  flat_map rotations inp.

(** Rotation by one position: what the loop body sends at [i = 1]. *)
Definition rotate1 (s : list ascii) : list ascii := drop 1 s ++ take 1 s.

(** ** The dictionary loader *)

(** [containsOnly]: the set [rs] of the runes of [target], then the loop
    over the runes of [s] with its early [return false]. *)
Fixpoint containsOnly_loop (rs : gset N) (l : list N) : bool :=
  match l with
  | [] => true
  | r :: l' => if bool_decide (r ∈ rs) then containsOnly_loop rs l' else false
  end.

Definition containsOnly (s target : list ascii) : bool :=
  let rs := foldl (λ rs r, {[r]} ∪ rs) (∅ : gset N) (runes target) in
  containsOnly_loop rs (runes s).

(** [hasAtMostLetters]: the loop over the runes of [s], with the set [cs] of
    the runes seen so far; [len(cs) > n] returns [false] at once. *)
Fixpoint hasAtMostLetters_loop (cs : gset N) (n : Z) (l : list N) : bool :=
  match l with
  | [] => true
  | c :: l' =>
    let cs := {[c]} ∪ cs in
    if (n <? Z.of_nat (size cs))%Z then false
    else hasAtMostLetters_loop cs n l'
  end.

Definition hasAtMostLetters (s : list ascii) (n : Z) : bool :=
  hasAtMostLetters_loop ∅ n (runes s).

(** A file opened for reading: the bytes that can be read from it, and what
    ends them, the end of the file or an I/O error. *)
Inductive error := EOF | ErrIO.

Record file := mkFile { data : list ascii; ending : error }.

(** The bytes up to and including the first [delim], and what follows. *)
Fixpoint split_delim (delim : ascii) (buf : list ascii)
  : option (list ascii * list ascii) :=
  match buf with
  | [] => None
  | b :: buf' =>
    if decide (b = delim) then Some ([b], buf')
    else
      match split_delim delim buf' with
      | Some (l, rest) => Some (b :: l, rest)
      | None => None
      end
  end.

(** [bufio.Reader.ReadBytes]: the bytes up to and including the delimiter;
    when the data ends before a delimiter, the bytes read so far together
    with the error that ended them. *)
Definition ReadBytes (delim : ascii) (r : file)
  : list ascii * option error * file :=
  match split_delim delim (data r) with
  | Some (l, rest) => (l, None, mkFile rest (ending r))
  | None => (data r, Some (ending r), mkFile [] (ending r))
  end.

Definition newline : ascii := ascii_of_N 10.

(** The white space of the ASCII fast path of [strings.TrimSpace]. *)
Definition asciiSpace (b : ascii) : bool :=
  bool_decide (N_of_ascii b ∈ [9; 10; 11; 12; 13; 32]).

Fixpoint trim_left (s : list ascii) : list ascii :=
  match s with
  | [] => []
  | b :: t => if asciiSpace b then trim_left t else s
  end.

(** [strings.TrimSpace] on strings whose white space is ASCII.  (On other
    strings the library also trims the Unicode white space; the loader
    below takes the trimming function as a parameter.) *)
Definition TrimSpace_ascii (s : list ascii) : list ascii :=
  reverse (trim_left (reverse (trim_left s))).

(** The text whose lines are [ls], each ended by a newline. *)
Definition unlines (ls : list (list ascii)) : list ascii :=
  flat_map (λ l, l ++ [newline]) ls.

Section Loader.

(** [strings.TrimSpace], of the Go library. *)
Variable TrimSpace : list ascii → list ascii.

(** The flag [num_letters]. *)
Variable numLetters : Z.

(** The tests of the loop body on a trimmed line [w], each with its
    [continue]: [true] when [w] is appended to [allWords]. *)
Definition keeps (w : list ascii) : bool :=
  if (length w <? 5)%nat then false
  else if negb (containsOnly w alphabet) then false
  else if negb (hasAtMostLetters w numLetters) then false
  else true.

(** The words the loop appends for the newline-terminated lines [ls]. *)
Definition kept (ls : list (list ascii)) : list (list ascii) :=
  List.filter keeps (map (λ l, TrimSpace (l ++ [newline])) ls).

(** The read loop of [genAllWords]. *)
Fixpoint read_loop (fuel : nat) (r : file) (allWords : list (list ascii))
  : result (list (list ascii)) :=
  match fuel with
  | O => OutOfFuel
  | S fuel' =>
    let '(l, err, r) := ReadBytes newline r in
    match err with
    | Some EOF => Done allWords
    | Some ErrIO => Fatal
    | None =>
      let w := TrimSpace l in
      if (length w <? 5)%nat then read_loop fuel' r allWords
      else if negb (containsOnly w alphabet) then read_loop fuel' r allWords
      else if negb (hasAtMostLetters w numLetters) then
        read_loop fuel' r allWords
      else read_loop fuel' r (allWords ++ [w])
    end
  end.

(** [genAllWords], on the outcome of [os.Open] for the words file: [None]
    when the file cannot be opened.  Every pass of the loop that does not leave it
    consumes at least one byte, so the fuel is never used up. *)
Definition genAllWords (f : option file) : result (list (list ascii)) :=
  match f with
  | None => Fatal
  | Some r => read_loop (S (length (data r))) r []
  end.

End Loader.

(** The words file cannot be opened, or reading it fails. *)
Definition unreadable (f : option file) : Prop :=
  match f with
  | None => True
  | Some r => ending r = ErrIO
  end.

(** A lowercase letter a-z. *)
Definition is_lower (b : ascii) : bool :=
  (97 <=? N_of_ascii b) && (N_of_ascii b <=? 122).

(** The number of distinct bytes of a string. *)
Definition distinct (w : list ascii) : nat := length (remove_dups w).

(** ** The matcher *)

Record puzzle := mkPuzzle {
  letters : list ascii;
  words : list (list ascii);
  maxPts : Z;
}.

#[global] Instance puzzle_eq_dec : EqDecision puzzle.
Proof. solve_decision. Defined.

(** The loop of [matchWords] over [allWords] that collects the words of a
    variant [s].  [s[0]] is a byte and [string(s[0])] the encoding of the
    code point of that value; it is evaluated once per word. *)
Fixpoint collect_loop (s : list ascii) (allWords words : list (list ascii))
  : result (list (list ascii)) :=
  match allWords with
  | [] => Done words
  | word :: allWords' =>
    s0 ← index s 0;
    if negb (strings.Contains word (string_of_rune (N_of_ascii s0))) then
      collect_loop s allWords' words
    else if containsOnly word s then
      collect_loop s allWords' (words ++ [word])
    else collect_loop s allWords' words
  end.

(** The inner loop of the scoring: [containsAll] after the runes [rs] of
    the variant. *)
Fixpoint containsAll_loop (w : list ascii) (rs : list N) (containsAll : bool)
  : bool :=
  match rs with
  | [] => containsAll
  | let_ :: rs' =>
    containsAll_loop w rs'
      (if negb (strings.ContainsRune w let_) then false else containsAll)
  end.

(** The scoring loop over [words]: [someContainsAll] and [maxPts]. *)
Fixpoint score_loop (s : list ascii) (words : list (list ascii))
    (someContainsAll : bool) (maxPts : Z) : bool * Z :=
  match words with
  | [] => (someContainsAll, maxPts)
  | w :: words' =>
    if containsAll_loop w (runes s) true
    then score_loop s words' true (int_add maxPts 3)
    else score_loop s words' someContainsAll (int_add maxPts 1)
  end.

(** One pass of the loop [for s := range in] of [matchWords]: the puzzle
    sent on [out], if any.  (The set [runes] that the pass builds first is
    not used by it.) *)
Definition matchVariant (allWords : list (list ascii)) (s : list ascii)
  : result (option puzzle) :=
  words ← collect_loop s allWords [];
  if (length words <? 10)%nat then Done None
  else
    let '(someContainsAll, maxPts) := score_loop s words false 0 in
    if negb someContainsAll then Done None
    else Done (Some (mkPuzzle s words maxPts)).

(** [matchWords] as the only worker: the puzzles sent on [out] for the
    variants received on [in]. *)
Definition matchWords (allWords : list (list ascii))
    (inp : list (list ascii)) : result (list puzzle) :=
  for_each (λ s, p ← matchVariant allWords s; Done (option_list p)) inp.

(** The words of the claims about the matcher, on letters. *)

(** [w] contains the mandatory letter [s[0]] and only letters of [s]. *)
Definition qualifies (s w : list ascii) : Prop :=
  (∃ c, s !! 0%nat = Some c ∧ c ∈ w) ∧ Forall (λ b, b ∈ s) w.

#[global] Instance qualifies_dec s w : Decision (qualifies s w).
Proof.
  unfold qualifies. apply and_dec; [|apply _].
  destruct (s !! 0%nat) as [c|].
  - destruct (decide (c ∈ w)) as [H|H].
    + left. by exists c.
    + right. intros (c' & [= <-] & ?). done.
  - right. by intros (c & ? & _).
Defined.

(** [w] uses every letter of [s]. *)
Definition pangram (s w : list ascii) : Prop := Forall (λ b, b ∈ w) s.

#[global] Instance pangram_dec s w : Decision (pangram s w) := _.

(** A dictionary for the examples: nine words that use both [a] and [b],
    and two that use one letter only. *)
Definition dict_ab : list (list ascii) :=
  [str "ababa"; str "babab"; str "aabbb"; str "aaaab"; str "abbbb";
   str "aaaaa"; str "baaaa"; str "bbbba"; str "aabba"; str "bbaab";
   str "bbbbb"].

(** ** The puzzle writer *)

(** The files of the output directory, by path. *)
Abbreviation files := (gmap (list ascii) (list ascii)).

(** [fmt.Fprintln(f, x)] for an [int] [x] prints it in decimal. *)
Definition itoa (z : Z) : list ascii :=
  str (NilZero.string_of_int (Z.to_int z)).

(** [fmt.Fprintln(f, text)]: the text and a newline, appended to the file. *)
Definition Fprintln (path text : list ascii) (fs : files) : files :=
  alter (λ c, c ++ text ++ [newline]) path fs.

Definition puzzle_file (p : puzzle) : list ascii :=
  str "./puzzels/" ++ (letters p ++ str ".txt").

(** What the file of a puzzle holds: its words, one per line, and its score
    on a last line. *)
Definition puzzle_text (p : puzzle) : list ascii :=
  flat_map (λ w, w ++ [newline]) (words p) ++ itoa (maxPts p) ++ [newline].

Section Writer.

(** Whether [os.Create] succeeds on a path; it does not, for one, when the
    directory [./puzzels] is missing. *)
Variable can_create : list ascii → bool.

(** The body of [case p, ok := <-in] for a puzzle [p]: [os.Create]
    truncates or creates the file, the words and the score are printed to
    it, and it is closed.  (What the writer prints to the standard output,
    for the ticker also, is not part of the model.) *)
Definition writePuzzle (p : puzzle) (fs : files) : result files :=
  let fn := letters p ++ str ".txt" in
  let path := str "./puzzels/" ++ fn in
  if can_create path then
    let fs := <[path := []]> fs in
    let fs := foldl (λ fs w, Fprintln path w fs) fs (words p) in
    let fs := Fprintln path (itoa (maxPts p)) fs in
    Done fs
  else Fatal.

(** [writePuzzles], for the puzzles received before the channel is
    closed. *)
Fixpoint writePuzzles (ps : list puzzle) (fs : files) : result files :=
  match ps with
  | [] => Done fs
  | p :: ps' => fs ← writePuzzle p fs; writePuzzles ps' fs
  end.

End Writer.

(** ** The pool of matchers *)

(** A worker running [matchWords]: waiting at [for s := range in], holding
    a puzzle at [out <- puzzle{...}], or returned. *)
Inductive worker := Idle | Holding (p : puzzle) | Exited.

Definition after_match (r : option puzzle) : worker :=
  match r with
  | Some p => Holding p
  | None => Idle
  end.

(** The pool between its two channels: the variants that [in] still
    delivers before it is closed, the workers, and the puzzles sent on
    [out] so far. *)
Record pool := mkPool {
  queue : list (list ascii);
  pool_workers : list worker;
  emitted : list puzzle;
}.

(** A step of one worker.  Both channels are unbuffered: a variant goes to
    one waiting worker, which runs its pass of the loop at once; a worker
    that holds a puzzle hands it over; a waiting worker returns when [in]
    is closed and empty.  (A pass that panics ends the process: the pool has
    no step then.) *)
Inductive pool_step (allWords : list (list ascii)) : pool → pool → Prop :=
| pool_recv i v q ws out r :
    ws !! i = Some Idle →
    matchVariant allWords v = Done r →
    pool_step allWords (mkPool (v :: q) ws out)
                       (mkPool q (<[i := after_match r]> ws) out)
| pool_send i p q ws out :
    ws !! i = Some (Holding p) →
    pool_step allWords (mkPool q ws out)
                       (mkPool q (<[i := Idle]> ws) (out ++ [p]))
| pool_exit i ws out :
    ws !! i = Some Idle →
    pool_step allWords (mkPool [] ws out)
                       (mkPool [] (<[i := Exited]> ws) out).

(** A run of [k] workers on the variants [vs], up to [wg.Wait()] returning:
    every worker has returned; [out] is what they sent, in the order in
    which they sent it. *)
Definition pool_run (allWords : list (list ascii)) (k : nat)
    (vs : list (list ascii)) (out : list puzzle) : Prop :=
  ∃ q ws,
    rtc (pool_step allWords) (mkPool vs (replicate k Idle) [])
                             (mkPool q ws out)
    ∧ Forall (λ w, w = Exited) ws.

(** The puzzle of a variant, if its pass sends one. *)
Definition puzzles_of (allWords : list (list ascii)) (v : list ascii)
  : list puzzle :=
  match matchVariant allWords v with
  | Done (Some p) => [p]
  | _ => []
  end.

Definition held (w : worker) : list puzzle :=
  match w with
  | Holding p => [p]
  | _ => []
  end.

(** The puzzles of the variants [ab] and [ba] over [dict_ab]. *)
Definition puzzle_ab : puzzle :=
  mkPuzzle (str "ab")
    [str "ababa"; str "babab"; str "aabbb"; str "aaaab"; str "abbbb";
     str "aaaaa"; str "baaaa"; str "bbbba"; str "aabba"; str "bbaab"] 28.

Definition puzzle_ba : puzzle :=
  mkPuzzle (str "ba")
    [str "ababa"; str "babab"; str "aabbb"; str "aaaab"; str "abbbb";
     str "baaaa"; str "bbbba"; str "aabba"; str "bbaab"; str "bbbbb"] 28.

(** The puzzles sent, held by a worker, or still to come. *)
Definition pool_puzzles (allWords : list (list ascii)) (st : pool)
  : list puzzle :=
  emitted st ++ flat_map held (pool_workers st)
  ++ flat_map (puzzles_of allWords) (queue st).

(** The workers are [k], and while a variant is still to come none of them
    has returned. *)
Definition pool_inv (k : nat) (st : pool) : Prop :=
  length (pool_workers st) = k
  ∧ (Exited ∈ pool_workers st → queue st = []).

(** ** The program: [main] and its goroutines *)

(** Where [main] is: before each of its three first [go] statements,
    before the call of [genAllWords], in the loop that starts the workers
    (with its counter, then at [wg.Wait()]), at [wg2.Wait()], returned; or
    the process has been ended by [log.Fatalf] or by a panic. *)
Inductive main_pc :=
| PcGoGenAllStrings
| PcGoRotate
| PcGoWritePuzzles
| PcGenAllWords
| PcWorkers (i : Z)
| PcWaitWriter
| PcReturned
| PcDead.

(** [genAllStrings]: not started, running with the number of strings it has
    sent on [strings], or returned after closing the channel. *)
Inductive gen_state := GenOff | GenOn (sent : nat) | GenClosed.

(** [rotate]: not started, running with the rotations it has still to send
    for the string it received last, or returned after closing [rotated]. *)
Inductive rot_state :=
| RotOff
| RotOn (pending : list (list ascii))
| RotClosed.

Inductive writer_state := WrOff | WrOn | WrReturned.

Record prog := mkProg {
  pc : main_pc;
  gen : gen_state;
  rot : rot_state;
  dict : list (list ascii);
  workers : list worker;
  closed : bool;
  writer : writer_state;
  disk : files;
}.

Definition set_pc (x : main_pc) (st : prog) : prog :=
  mkProg x (gen st) (rot st) (dict st) (workers st) (closed st) (writer st)
    (disk st).
Definition set_gen (x : gen_state) (st : prog) : prog :=
  mkProg (pc st) x (rot st) (dict st) (workers st) (closed st) (writer st)
    (disk st).
Definition set_rot (x : rot_state) (st : prog) : prog :=
  mkProg (pc st) (gen st) x (dict st) (workers st) (closed st) (writer st)
    (disk st).
Definition set_dict (x : list (list ascii)) (st : prog) : prog :=
  mkProg (pc st) (gen st) (rot st) x (workers st) (closed st) (writer st)
    (disk st).
Definition set_workers (x : list worker) (st : prog) : prog :=
  mkProg (pc st) (gen st) (rot st) (dict st) x (closed st) (writer st)
    (disk st).
Definition set_closed (x : bool) (st : prog) : prog :=
  mkProg (pc st) (gen st) (rot st) (dict st) (workers st) x (writer st)
    (disk st).
Definition set_writer (x : writer_state) (st : prog) : prog :=
  mkProg (pc st) (gen st) (rot st) (dict st) (workers st) (closed st) x
    (disk st).
Definition set_disk (x : files) (st : prog) : prog :=
  mkProg (pc st) (gen st) (rot st) (dict st) (workers st) (closed st)
    (writer st) x.

(** The process runs. *)
Definition alive (st : prog) : Prop := pc st ≠ PcReturned ∧ pc st ≠ PcDead.

(** What happens in a step. *)
Inductive event :=
| EvGoGenAllStrings
| EvGoRotate
| EvGoWritePuzzles
| EvLoaded
| EvFatal
| EvGoWorker
| EvClosePuzzles
| EvReturn
| EvCombination (s : list ascii)
| EvGenClose
| EvRotClose
| EvVariant (i : nat) (v : list ascii)
| EvPanic
| EvWorkerReturn (i : nat)
| EvPuzzle (i : nat) (p : puzzle)
| EvWriterReturn.

(** A string or a puzzle goes through a channel of the pipeline. *)
Definition pipeline_work (ev : event) : Prop :=
  match ev with
  | EvCombination _ | EvVariant _ _ | EvPuzzle _ _ => True
  | _ => False
  end.

(** The matchers are started, match, or a puzzle is written. *)
Definition matching (ev : event) : Prop :=
  match ev with
  | EvLoaded | EvGoWorker | EvVariant _ _ | EvPuzzle _ _ => True
  | _ => False
  end.

Section Program.

Variable TrimSpace : list ascii → list ascii.
Variable can_create : list ascii → bool.

(** The flags [num_letters] and [parallel], and what [os.Open] gives for
    the flag [words_file]. *)
Variable numLetters : Z.
Variable parallel : Z.
Variable wordsFile : option file.

(** The steps of the process, by the statements of [main] first, then by
    those of [genAllStrings], [rotate], [matchWords] and [writePuzzles].
    The channels [strings], [rotated] and [puzzles] are unbuffered: a value
    passes when the receiver waits for it.  [log.Fatalf] and a panic end the
    process, and so does the return of [main]. *)
Inductive step : prog → event → prog → Prop :=
| step_go_genAllStrings st :
    pc st = PcGoGenAllStrings →
    step st EvGoGenAllStrings (set_pc PcGoRotate (set_gen (GenOn 0) st))
| step_go_rotate st :
    pc st = PcGoRotate →
    step st EvGoRotate (set_pc PcGoWritePuzzles (set_rot (RotOn []) st))
| step_go_writePuzzles st :
    pc st = PcGoWritePuzzles →
    step st EvGoWritePuzzles (set_pc PcGenAllWords (set_writer WrOn st))
| step_genAllWords st allWords :
    pc st = PcGenAllWords →
    genAllWords TrimSpace numLetters wordsFile = Done allWords →
    step st EvLoaded (set_pc (PcWorkers 0) (set_dict allWords st))
| step_genAllWords_fatal st :
    pc st = PcGenAllWords →
    genAllWords TrimSpace numLetters wordsFile = Fatal →
    step st EvFatal (set_pc PcDead st)
| step_go_worker st i :
    pc st = PcWorkers i → (i < parallel)%Z →
    step st EvGoWorker
      (set_pc (PcWorkers (int_add i 1)) (set_workers (workers st ++ [Idle]) st))
| step_close_puzzles st i :
    pc st = PcWorkers i → (parallel ≤ i)%Z →
    Forall (λ w, w = Exited) (workers st) →
    step st EvClosePuzzles (set_pc PcWaitWriter (set_closed true st))
| step_return st :
    pc st = PcWaitWriter → writer st = WrReturned →
    step st EvReturn (set_pc PcReturned st)
| step_combination st sent fuel out s :
    alive st → gen st = GenOn sent →
    genAllStrings fuel numLetters = Done out → out !! sent = Some s →
    rot st = RotOn [] →
    step st (EvCombination s)
      (set_gen (GenOn (S sent)) (set_rot (RotOn (rotations s)) st))
| step_gen_close st sent fuel out :
    alive st → gen st = GenOn sent →
    genAllStrings fuel numLetters = Done out → (length out ≤ sent)%nat →
    step st EvGenClose (set_gen GenClosed st)
| step_rot_close st :
    alive st → rot st = RotOn [] → gen st = GenClosed →
    step st EvRotClose (set_rot RotClosed st)
| step_variant st v vs i r :
    alive st → rot st = RotOn (v :: vs) → workers st !! i = Some Idle →
    matchVariant (dict st) v = Done r →
    step st (EvVariant i v)
      (set_rot (RotOn vs)
         (set_workers (<[i := after_match r]> (workers st)) st))
| step_variant_panic st v vs i :
    alive st → rot st = RotOn (v :: vs) → workers st !! i = Some Idle →
    matchVariant (dict st) v = Panic →
    step st EvPanic (set_pc PcDead st)
| step_worker_return st i :
    alive st → rot st = RotClosed → workers st !! i = Some Idle →
    step st (EvWorkerReturn i)
      (set_workers (<[i := Exited]> (workers st)) st)
| step_puzzle st i p fs :
    alive st → workers st !! i = Some (Holding p) → writer st = WrOn →
    writePuzzle can_create p (disk st) = Done fs →
    step st (EvPuzzle i p)
      (set_disk fs (set_workers (<[i := Idle]> (workers st)) st))
| step_puzzle_fatal st i p :
    alive st → workers st !! i = Some (Holding p) → writer st = WrOn →
    writePuzzle can_create p (disk st) = Fatal →
    step st EvFatal (set_pc PcDead st)
| step_writer_return st :
    alive st → writer st = WrOn → closed st = true →
    step st EvWriterReturn (set_writer WrReturned st).

(** A run: the events of its steps, in order. *)
Inductive runs : prog → list event → prog → Prop :=
| runs_nil st : runs st [] st
| runs_cons st ev st' tr st'' :
    step st ev st' → runs st' tr st'' → runs st (ev :: tr) st''.

End Program.

(** The process when [main] is entered, with the files [fs] on the disk. *)
Definition start (fs : files) : prog :=
  mkProg PcGoGenAllStrings GenOff RotOff [] [] false WrOff fs.

(** The words file is unreadable and the process is ended by the fatal
    error before anything goes through a channel of the pipeline. *)
Definition fatal_before_pipeline_work
    (TrimSpace : list ascii → list ascii) (can_create : list ascii → bool)
    (numLetters parallel : Z) (wordsFile : option file) (fs : files) : Prop :=
  ∀ tr st,
    runs TrimSpace can_create numLetters parallel wordsFile (start fs) tr st →
    pc st = PcDead →
    Forall (λ ev, ¬ pipeline_work ev) tr.

(** [main] has not loaded the dictionary: it is at one of its first four
    statements, or the process is dead; no worker exists and no file has
    been written. *)
Definition before_matching (fs : files) (st : prog) : Prop :=
  (pc st = PcGoGenAllStrings ∨ pc st = PcGoRotate ∨ pc st = PcGoWritePuzzles
   ∨ pc st = PcGenAllWords ∨ pc st = PcDead)
  ∧ workers st = [] ∧ disk st = fs.

(** A run with the default flags and no words file: the generator hands
    its first combination to [rotate] before [main] calls [genAllWords]. *)
Definition fatal_trace : list event :=
  [EvGoGenAllStrings; EvGoRotate; EvCombination (str "abcdefg");
   EvGoWritePuzzles; EvFatal].

Definition fatal_state : prog :=
  mkProg PcDead (GenOn 1) (RotOn (rotations (str "abcdefg"))) [] [] false
    WrOn ∅.

(** ** [factorial] *)

(** The [big.Int] values of the heap, by address. *)
Abbreviation heap := (gmap positive Z).

(** The value of the [big.Int] at [p]; a nil or dangling pointer panics. *)
Definition load (h : heap) (p : positive) : result Z :=
  match h !! p with
  | Some v => Done v
  | None => Panic
  end.

(** The loop of [factorial]: [n.Cmp(0) == 1], then [result.Mul(result, n)]
    and [n.Sub(n, one)], both in place. *)
Fixpoint factorial_loop (fuel : nat) (n result_ : positive) (h : heap)
  : result heap :=
  match fuel with
  | O => OutOfFuel
  | S fuel' =>
    vn ← load h n;
    if (0 <? vn)%Z then
      vr ← load h result_;
      vn ← load h n;
      let h := <[result_ := (vr * vn)%Z]> h in
      vn ← load h n;
      let h := <[n := (vn - 1)%Z]> h in
      factorial_loop fuel' n result_ h
    else Done h
  end.

(** [factorial]: [result] is a new [big.Int] of value 1; the function
    returns the pointer [n], not [result].  (The deferred [timeTrack] only
    logs the time.) *)
Definition factorial (fuel : nat) (n : positive) (h : heap)
  : result (positive * heap) :=
  let result_ := fresh (dom h) in
  let h := <[result_ := 1%Z]> h in
  h ← factorial_loop fuel n result_ h;
  Done (n, h).

(** ** What a run of the program has done *)

(** The variants that the workers have received, in order. *)
Definition variants_of (tr : list event) : list (list ascii) :=
  omap (λ ev, match ev with EvVariant _ v => Some v | _ => None end) tr.

(** The puzzles that the writer has written, in order. *)
Definition puzzles_written (tr : list event) : list puzzle :=
  omap (λ ev, match ev with EvPuzzle _ p => Some p | _ => None end) tr.

(** The generator has sent [sent] of the combinations [out], [rotate] has
    still to send [pending], and the variants received by the workers so
    far followed by [pending] are the rotations of the combinations
    sent. *)
Definition flow_inv (out : list (list ascii)) (tr : list event) (st : prog)
  : Prop :=
  match gen st, rot st with
  | GenOff, RotOff => variants_of tr = []
  | GenOn sent, RotOff => sent = 0%nat ∧ variants_of tr = []
  | GenClosed, RotOff => out = [] ∧ variants_of tr = []
  | GenOn sent, RotOn pending =>
    (sent ≤ length out)%nat
    ∧ variants_of tr ++ pending = rotate (take sent out)
  | GenClosed, RotOn pending => variants_of tr ++ pending = rotate out
  | GenClosed, RotClosed => variants_of tr = rotate out
  | _, _ => False
  end.

(** Nothing has been matched or written: [main] has not started a
    worker. *)
Definition idle_inv (tr : list event) (st : prog) : Prop :=
  closed st = false ∧ workers st = []
  ∧ variants_of tr = [] ∧ puzzles_written tr = [].

(** What the place of [main] tells about the goroutines. *)
Definition main_inv (allWords : list (list ascii)) (parallel : Z)
    (tr : list event) (st : prog) : Prop :=
  match pc st with
  | PcGoGenAllStrings =>
    gen st = GenOff ∧ rot st = RotOff ∧ writer st = WrOff ∧ idle_inv tr st
  | PcGoRotate =>
    gen st ≠ GenOff ∧ rot st = RotOff ∧ writer st = WrOff ∧ idle_inv tr st
  | PcGoWritePuzzles =>
    gen st ≠ GenOff ∧ rot st ≠ RotOff ∧ writer st = WrOff ∧ idle_inv tr st
  | PcGenAllWords =>
    gen st ≠ GenOff ∧ rot st ≠ RotOff ∧ writer st = WrOn ∧ idle_inv tr st
  | PcWorkers i =>
    gen st ≠ GenOff ∧ rot st ≠ RotOff ∧ writer st = WrOn
    ∧ closed st = false ∧ dict st = allWords
    ∧ i = Z.of_nat (length (workers st)) ∧ (i ≤ Z.max 0 parallel)%Z
  | PcWaitWriter =>
    gen st ≠ GenOff ∧ rot st ≠ RotOff ∧ writer st ≠ WrOff
    ∧ closed st = true ∧ dict st = allWords
    ∧ Forall (λ w, w = Exited) (workers st)
    ∧ (parallel ≤ Z.of_nat (length (workers st)))%Z
  | PcReturned =>
    gen st ≠ GenOff ∧ rot st ≠ RotOff ∧ writer st = WrReturned
    ∧ closed st = true ∧ dict st = allWords
    ∧ Forall (λ w, w = Exited) (workers st)
    ∧ (parallel ≤ Z.of_nat (length (workers st)))%Z
  | PcDead => True
  end.

(** The invariant of the runs of a process that has not been ended: the
    flow of the strings, the place of [main], the files written for the
    puzzles handed over, the puzzles of the variants received (written or
    still held by a worker), and no worker returns before [rotated] is
    closed. *)
Definition program_inv (can_create : list ascii → bool) (parallel : Z)
    (out allWords : list (list ascii)) (fs : files)
    (tr : list event) (st : prog) : Prop :=
  pc st = PcDead
  ∨ (flow_inv out tr st
     ∧ main_inv allWords parallel tr st
     ∧ writePuzzles can_create (puzzles_written tr) fs = Done (disk st)
     ∧ puzzles_written tr ++ flat_map held (workers st)
       ≡ₚ flat_map (puzzles_of allWords) (variants_of tr)
     ∧ (Exited ∈ workers st → rot st = RotClosed)).

(** With no worker to start, [main] starts none (the counter of its loop
    stays at 0): nothing is matched and the disk is as it was. *)
Definition no_worker_inv (fs : files) (tr : list event) (st : prog) : Prop :=
  workers st = [] ∧ disk st = fs
  ∧ variants_of tr = [] ∧ puzzles_written tr = []
  ∧ ∀ i, pc st = PcWorkers i → (0 ≤ i)%Z.

(** ** The cleanup program: [RemoveGlob] and its [main] *)

Section Cleanup.

(** The file system and the errors of the operating system, and the two
    calls of the Go library: [filepath.Glob] gives the matches of a pattern
    or an error, [os.RemoveAll] the file system after it and its error, if
    any. *)
Variables FS Err : Type.
Variable Glob : list ascii → FS → list (list ascii) + Err.
Variable RemoveAll : list ascii → FS → FS * option Err.

(** The loop of [RemoveGlob]: it returns at the first error. *)
Fixpoint RemoveGlob_loop (contents : list (list ascii)) (s : FS)
  : FS * option Err :=
  match contents with
  | [] => (s, None)
  | item :: contents' =>
    let (s', err) := RemoveAll item s in
    match err with
    | Some e => (s', Some e)
    | None => RemoveGlob_loop contents' s'
    end
  end.

Definition RemoveGlob (path : list ascii) (s : FS) : FS * option Err :=
  match Glob path s with
  | inr e => (s, Some e)
  | inl contents => RemoveGlob_loop contents s
  end.

(** [main] of the cleanup program, on the arguments [os.Args]: the index
    [os.Args[1]] panics when it is out of range, and [log.Fatalf] ends the
    process on an error of [RemoveGlob]. *)
Definition cleanup_main (args : list (list ascii)) (s : FS) : result FS :=
  match args !! 1%nat with
  | None => Panic
  | Some path =>
    match RemoveGlob path s with
    | (_, Some _) => Fatal
    | (s', None) => Done s'
    end
  end.

End Cleanup.

(** A file system for the examples: the names of its files; the file b
    cannot be removed. *)
Definition Glob_all (path : list ascii) (s : list (list ascii))
  : list (list ascii) + unit := inl s.

Definition RemoveAll_but_b (item : list ascii) (s : list (list ascii))
  : list (list ascii) * option unit :=
  if decide (item = str "b") then (s, Some ())
  else (filter (λ x, x ≠ item) s, None).

(* ===================================================================== *)
(** * Properties *)
(* ===================================================================== *)

(** ** Bytes, runes and the result monad *)

Lemma for_each_Done {A B} (body : A → result (list B)) (f : A → list B) l :
  (∀ a, a ∈ l → body a = Done (f a)) →
  for_each body l = Done (flat_map f l).
Proof.
  induction l as [|a l IH]; intros Hb; [done|].
  simpl. rewrite (Hb a) by left. simpl.
  rewrite IH by (intros; apply Hb; by right). done.
Qed.

Lemma for_each_map {A B C} (body : B → result (list C)) (g : A → B) l :
  for_each body (map g l) = for_each (λ a, body (g a)) l.
Proof. induction l as [|a l IH]; [done|]. simpl. by rewrite IH. Qed.

#[global] Instance N_of_ascii_inj : Inj (=) (=) N_of_ascii.
Proof.
  intros a b H. rewrite <- (ascii_N_embedding a), <- (ascii_N_embedding b).
  by rewrite H.
Qed.

Lemma byte_N_of_ascii (a : ascii) : utf8.byte (N_of_ascii a) = a.
Proof.
  unfold utf8.byte. rewrite N.mod_small by apply N_ascii_bounded.
  apply ascii_N_embedding.
Qed.

Lemma string_of_rune_ascii (a : ascii) :
  N_of_ascii a < 128 → string_of_rune (N_of_ascii a) = [a].
Proof.
  intros H. unfold string_of_rune, utf8.EncodeRune.
  destruct (N.leb_spec (N_of_ascii a) 0x7F); [|lia].
  by rewrite byte_N_of_ascii.
Qed.

Lemma DecodeRune_ascii (a : ascii) s :
  N_of_ascii a < 128 → utf8.DecodeRuneInString (a :: s) = (N_of_ascii a, 1%nat).
Proof.
  intros H. unfold utf8.DecodeRuneInString, utf8.RuneSelf.
  destruct (N.ltb_spec (N_of_ascii a) 0x80); [done|lia].
Qed.

Lemma DecodeRune_width s :
  s ≠ [] → (1 ≤ (utf8.DecodeRuneInString s).2 ≤ 4)%nat.
Proof.
  intros Hs. unfold utf8.DecodeRuneInString.
  repeat (case_match; simpl; try lia; try done).
Qed.

Lemma runes_fuel_enough fuel s :
  (length s ≤ fuel)%nat → runes_fuel fuel s = runes s.
Proof.
  unfold runes. revert s.
  induction (lt_wf fuel) as [fuel _ IH]. intros s Hlen.
  destruct s as [|b t]; [by destruct fuel|].
  destruct fuel as [|fuel]; [simpl in Hlen; lia|].
  change (length (b :: t)) with (S (length t)).
  cbn [runes_fuel].
  pose proof (DecodeRune_width (b :: t) ltac:(done)) as Hw.
  destruct (utf8.DecodeRuneInString (b :: t)) as [r w]. simpl in Hw.
  f_equal.
  assert (length (drop w (b :: t)) ≤ length t)%nat as Hd.
  { rewrite length_drop. simpl. lia. }
  rewrite (IH fuel) by (simpl in Hlen; lia).
  symmetry. destruct (decide (length t = 0%nat)) as [H0|H0].
  - rewrite H0. assert (drop w (b :: t) = []) as ->; [|done].
    apply nil_length_inv. lia.
  - apply (IH (length t)); simpl in Hlen; lia.
Qed.

Lemma runes_nil : runes [] = [].
Proof. done. Qed.

Lemma runes_unfold s :
  s ≠ [] →
  runes s = (utf8.DecodeRuneInString s).1
            :: runes (drop (utf8.DecodeRuneInString s).2 s).
Proof.
  intros Hs. destruct s as [|b t]; [done|].
  unfold runes at 1. change (length (b :: t)) with (S (length t)).
  cbn [runes_fuel].
  pose proof (DecodeRune_width (b :: t) Hs) as Hw.
  destruct (utf8.DecodeRuneInString (b :: t)) as [r w]. simpl in *.
  f_equal. apply runes_fuel_enough. rewrite length_drop. simpl. lia.
Qed.

Lemma runes_cons_ascii (a : ascii) s :
  N_of_ascii a < 128 → runes (a :: s) = N_of_ascii a :: runes s.
Proof.
  intros H. rewrite runes_unfold by done.
  by rewrite DecodeRune_ascii.
Qed.

Lemma runes_ascii s : ascii_only s → runes s = map N_of_ascii s.
Proof.
  induction 1 as [|a s Ha _ IH]; [done|].
  rewrite runes_cons_ascii by done. simpl. by rewrite IH.
Qed.

(** ** The combination generator *)

Section Combinations.

Lemma binom_gt n k : (n < k)%nat → binom n k = 0%nat.
Proof.
  revert k. induction n as [|n IH]; intros [|k] Hk; simpl; try lia.
  rewrite !IH by lia. done.
Qed.

Lemma binom_diag n : binom n n = 1%nat.
Proof.
  induction n as [|n IH]; [done|]. simpl.
  rewrite IH, binom_gt by lia. done.
Qed.

(** [binom] is the usual quotient of factorials. *)
Lemma binom_fact n k :
  (k ≤ n)%nat → (binom n k * (fact k * fact (n - k)) = fact n)%nat.
Proof.
  revert k. induction n as [|n IH]; intros k Hk.
  - assert (k = 0%nat) as -> by lia. done.
  - destruct k as [|k]; [simpl; lia|].
    destruct (decide (k = n)) as [->|Hne].
    + rewrite binom_diag, Nat.sub_diag. simpl. lia.
    + cbn [binom].
      pose proof (IH k ltac:(lia)) as H1.
      pose proof (IH (S k) ltac:(lia)) as H2.
      replace (S n - S k)%nat with (n - k)%nat by lia.
      replace (n - k)%nat with (S (n - S k)) in * by lia.
      change (fact (S n)) with (S n * fact n)%nat.
      change (fact (S k)) with (S k * fact k)%nat in *.
      change (fact (S (n - S k))) with (S (n - S k) * fact (n - S k))%nat in *.
      nia.
Qed.

Lemma length_combs l k : length (combs l k) = binom (length l) k.
Proof.
  revert k. induction l as [|c l IH]; intros [|k]; simpl; try done.
  by rewrite length_app, length_map, !IH.
Qed.

Lemma combs_sublist l k x : x ∈ combs l k → x `sublist_of` l ∧ length x = k.
Proof.
  revert k x. induction l as [|c l IH]; intros [|k] x; simpl.
  - intros ->%list_elem_of_singleton. split; [constructor|done].
  - by intros ?%elem_of_nil.
  - intros ->%list_elem_of_singleton. split; [apply sublist_nil_l|done].
  - rewrite elem_of_app, list_elem_of_fmap.
    intros [(y & -> & [Hy Hl]%IH)|[Hx Hl]%IH].
    + split; [by apply sublist_skip|simpl; by rewrite Hl].
    + split; [by apply sublist_cons|done].
Qed.

Lemma combs_head l k x :
  x ∈ combs l (S k) → ∃ b t, x = b :: t ∧ b ∈ l.
Proof.
  intros [Hs Hl]%combs_sublist.
  destruct x as [|b t]; [done|]. exists b, t. split; [done|].
  eapply elem_of_sublist; [|done]. left.
Qed.

Lemma NoDup_combs l k : NoDup l → NoDup (combs l k).
Proof.
  revert k. induction l as [|c l IH]; intros [|k] Hnd; simpl;
    try apply NoDup_singleton; try apply NoDup_nil_2.
  apply NoDup_cons in Hnd as [Hc Hnd].
  apply NoDup_app. split_and!.
  - apply NoDup_fmap_2; [|by apply IH]. by intros ?? [=].
  - intros x (y & -> & _)%list_elem_of_fmap [Hs _]%combs_sublist.
    apply Hc. eapply elem_of_sublist; [|done]. left.
  - by apply IH.
Qed.

Lemma sublist_StronglySorted {A} (R : relation A) (l1 l2 : list A) :
  l1 `sublist_of` l2 → StronglySorted R l2 → StronglySorted R l1.
Proof.
  induction 1 as [|x l1 l2 Hs IH|x l1 l2 Hs IH]; [done|..];
    rewrite !StronglySorted_cons; intros [Hx Hl2].
  - split; [|by apply IH].
    rewrite Forall_forall in Hx |- *. intros y Hy.
    apply Hx. by eapply elem_of_sublist.
  - by apply IH.
Qed.

End Combinations.

Section Generator.

Lemma filter_all {A} (f : A → bool) l :
  (∀ x, x ∈ l → f x = true) → List.filter f l = l.
Proof.
  induction l as [|a l IH]; intros H; [done|]. simpl.
  rewrite (H a) by left. f_equal. apply IH. intros; apply H; by right.
Qed.

Lemma filter_none {A} (f : A → bool) l :
  (∀ x, x ∈ l → f x = false) → List.filter f l = [].
Proof.
  induction l as [|a l IH]; intros H; [done|]. simpl.
  rewrite (H a) by left. apply IH. intros; apply H; by right.
Qed.

Lemma blt_irrefl c : blt c c = false.
Proof. unfold blt. apply N.ltb_irrefl. Qed.

Lemma blt_lt a b : blt a b = true ↔ letter_lt a b.
Proof. unfold blt, letter_lt. apply N.ltb_lt. Qed.

Lemma blt_asym a b : letter_lt a b → blt b a = false.
Proof. unfold blt, letter_lt. intros. apply N.ltb_ge. lia. Qed.

(** Among the combinations of a sorted alphabet, those whose first letter
    comes after [c] are the combinations of the letters after [c]. *)
Lemma filter_head_after_combs pre c post k :
  StronglySorted letter_lt (pre ++ c :: post) →
  List.filter (head_after c) (combs (pre ++ c :: post) (S k))
  = combs post (S k).
Proof.
  induction pre as [|x pre IH]; intros Hs.
  - cbn [app combs]. rewrite List.filter_app.
    rewrite filter_none, filter_all; [done|..].
    + intros y (b & t & -> & Hb)%combs_head. simpl. apply blt_lt.
      apply StronglySorted_cons in Hs as [Hc _].
      rewrite Forall_forall in Hc. by apply Hc.
    + intros y (t & -> & _)%list_elem_of_fmap. simpl. apply blt_irrefl.
  - cbn [app combs]. rewrite List.filter_app.
    change (x :: pre ++ c :: post) with ((x :: pre) ++ c :: post) in Hs.
    pose proof Hs as Hs'.
    apply StronglySorted_cons in Hs' as [Hx Hs'].
    rewrite filter_none, IH; [done|done|].
    intros y (t & -> & _)%list_elem_of_fmap. simpl. apply blt_asym.
    rewrite Forall_forall in Hx. apply Hx. set_solver.
Qed.

Lemma gen_step_combs pre B k :
  StronglySorted letter_lt (pre ++ B) →
  flat_map (λ c, map (cons c)
                   (List.filter (head_after c) (combs (pre ++ B) (S k)))) B
  = combs B (S (S k)).
Proof.
  revert pre. induction B as [|c B IH]; intros pre Hs; [done|].
  cbn [flat_map]. rewrite filter_head_after_combs by done.
  change (combs (c :: B) (S (S k)))
    with (map (cons c) (combs B (S k)) ++ combs B (S (S k))).
  f_equal. rewrite <- (IH (pre ++ [c])) by (by rewrite <- app_assoc).
  by rewrite <- app_assoc.
Qed.

Lemma combs_one A : combs A 1 = map (λ c, [c]) A.
Proof.
  induction A as [|c A IH]; [done|]. cbn [combs map app].
  rewrite IH. by destruct A.
Qed.

(** Over a sorted alphabet, level [k] of the generator is the list of the
    combinations of [k + 1] letters. *)
Lemma gen_level_combs A k :
  StronglySorted letter_lt A → gen_level A k = combs A (S k).
Proof.
  intros Hs. induction k as [|k IH]; [by rewrite combs_one|].
  cbn [gen_level]. rewrite IH. by apply (gen_step_combs []).
Qed.

Lemma alphabet_ascii : ascii_only alphabet.
Proof.
  unfold ascii_only. apply Forall_forall. intros b Hb.
  apply N.ltb_lt.
  apply (proj1 (forallb_forall (λ b, N_of_ascii b <? 128) alphabet)); [done|].
  by apply list_elem_of_In.
Qed.

Lemma alphabet_sorted : StronglySorted letter_lt alphabet.
Proof.
  unfold alphabet, str. simpl.
  repeat (apply SSorted_cons; [|repeat constructor; by vm_compute]).
  constructor.
Qed.

Lemma alphabet_NoDup : NoDup alphabet.
Proof. apply (bool_decide_unpack _). by vm_compute. Qed.

Lemma alphabet_length : length alphabet = 26%nat.
Proof. done. Qed.

Lemma int_sub_small (n : Z) : (1 ≤ n ≤ int_max)%Z → int_sub n 1 = (n - 1)%Z.
Proof.
  unfold int_sub, int_wrap, int_max. intros H.
  rewrite Z.mod_small; lia.
Qed.

Lemma inner_loop_Done (a : ascii) (ch : list (list ascii)) :
  N_of_ascii a < 128 →
  (∀ rest, rest ∈ ch → rest ≠ []) →
  for_each (λ rest,
      rest0 ← index rest 0;
      if N_of_ascii (byte_of_rune (N_of_ascii a)) <? N_of_ascii rest0
      then Done [string_of_rune (N_of_ascii a) ++ rest]
      else Done []) ch
  = Done (map (cons a) (List.filter (head_after a) ch)).
Proof.
  intros Ha. unfold byte_of_rune. rewrite byte_N_of_ascii, string_of_rune_ascii by done.
  induction ch as [|rest ch IH]; intros Hne; [done|].
  cbn [for_each]. rewrite IH by (intros; apply Hne; by right).
  destruct rest as [|b t]; [by destruct (Hne [] ltac:(left))|].
  simpl. unfold blt. by destruct (N_of_ascii a <? N_of_ascii b).
Qed.

Lemma gen_level_nonempty A k rest : rest ∈ gen_level A k → rest ≠ [].
Proof.
  destruct k; simpl.
  - by intros (c & -> & _)%list_elem_of_fmap.
  - rewrite list_elem_of_In, in_flat_map.
    intros (c & _ & (t & <- & _)%in_map_iff). done.
Qed.

(** With fuel for its [n] levels of recursion, [genAllStrings] sends level
    [n - 1] of the generator over the alphabet and closes its channel. *)
Lemma genAllStrings_level fuel (n : Z) :
  (1 ≤ n ≤ int_max)%Z → (Z.to_nat n ≤ fuel)%nat →
  genAllStrings fuel n = Done (gen_level alphabet (Z.to_nat n - 1)).
Proof.
  revert n. induction fuel as [|fuel IH]; intros n Hn Hf; [lia|].
  cbn [genAllStrings].
  rewrite (runes_ascii _ alphabet_ascii), for_each_map.
  destruct (Z.eqb_spec n 1) as [->|Hne].
  - change (Z.to_nat 1 - 1)%nat with 0%nat. cbn [gen_level].
    rewrite (for_each_Done _ (λ c, [[c]])).
    + reflexivity.
    + intros a Ha. rewrite string_of_rune_ascii; [done|].
      pose proof alphabet_ascii as H. unfold ascii_only in H.
      rewrite Forall_forall in H. by apply H.
  - rewrite int_sub_small by done.
    rewrite IH by lia.
    replace (Z.to_nat n - 1)%nat with (S (Z.to_nat (n - 1) - 1)) by lia.
    cbn [gen_level]. apply for_each_Done. intros a Ha.
    change (Done (gen_level alphabet (Z.to_nat (n - 1) - 1)) ≫= ?f)
      with (f (gen_level alphabet (Z.to_nat (n - 1) - 1))).
    cbv beta. apply inner_loop_Done.
    + pose proof alphabet_ascii as H. unfold ascii_only in H.
      rewrite Forall_forall in H. by apply H.
    + intros rest. apply gen_level_nonempty.
Qed.

End Generator.

(** C1: for every n >= 1 (an int), with fuel for its n levels of recursion,
    genAllStrings sends exactly C(26, n) strings and closes its channel;
    each string has length n, its letters are letters of the alphabet in
    strictly increasing order, no string is sent twice, and for n > 26
    nothing is sent. *)
Theorem genAllStrings_combinations (n : Z) (fuel : nat) :
  (1 ≤ n ≤ int_max)%Z → (Z.to_nat n ≤ fuel)%nat →
  ∃ out, genAllStrings fuel n = Done out
    ∧ length out = binom 26 (Z.to_nat n)
    ∧ Forall (λ s, length s = Z.to_nat n
                   ∧ StronglySorted letter_lt s
                   ∧ s ⊆ alphabet) out
    ∧ NoDup out
    ∧ ((26 < n)%Z → out = []).
Proof.
  intros Hn Hf. eexists. split; [by apply genAllStrings_level|].
  rewrite gen_level_combs by apply alphabet_sorted.
  replace (S (Z.to_nat n - 1)) with (Z.to_nat n) by lia.
  assert (length (combs alphabet (Z.to_nat n)) = binom 26 (Z.to_nat n)) as Hlen.
  { by rewrite length_combs, alphabet_length. }
  split_and!.
  - done.
  - apply Forall_forall. intros s [Hs Hl]%combs_sublist. split_and!.
    + done.
    + eapply sublist_StronglySorted; [done|apply alphabet_sorted].
    + intros x Hx. by eapply elem_of_sublist.
  - apply NoDup_combs, alphabet_NoDup.
  - intros H26. apply nil_length_inv. rewrite Hlen. apply binom_gt. lia.
Qed.

Lemma genAllStrings_combinations_witness :
  ∃ out, genAllStrings 2 2 = Done out
    ∧ length out = binom 26 (Z.to_nat 2)
    ∧ Forall (λ s, length s = Z.to_nat 2
                   ∧ StronglySorted letter_lt s
                   ∧ s ⊆ alphabet) out
    ∧ NoDup out
    ∧ ((26 < 2)%Z → out = []).
Proof.
  apply (genAllStrings_combinations 2 2); [unfold int_max; lia|simpl; lia].
Defined.

(** The seven-letter puzzles of the default configuration: C(26, 7). *)
Example binom_26_7 : N.of_nat (binom 26 7) = 657800.
Proof. vm_compute. reflexivity. Qed.

Example genAllStrings_2_head :
  take 3 <$> (match genAllStrings 2 2 with Done l => Some l | _ => None end)
  = Some [str "ab"; str "ac"; str "ad"].
Proof. by vm_compute. Qed.

(** Without the guard [n >= 1] the recursion never reaches [n = 1]: no
    amount of fuel below the wrap-around of [n] is enough. *)
Example genAllStrings_0_diverges : genAllStrings 5 0 = OutOfFuel.
Proof. by vm_compute. Qed.

(** ** The rotation expander *)

Section Rotation.

Lemma rotate_loop_seq fuel (s : list ascii) i :
  (length s - i < fuel)%nat →
  rotate_loop fuel s i
  = map (λ j, drop j s ++ take j s) (seq i (length s - i)).
Proof.
  revert i. induction fuel as [|fuel IH]; intros i Hf; [lia|].
  cbn [rotate_loop]. destruct (Nat.ltb_spec i (length s)) as [Hi|Hi].
  - replace (length s - i)%nat with (S (length s - S i)) by lia.
    cbn [seq map]. f_equal. apply IH. lia.
  - by replace (length s - i)%nat with 0%nat by lia.
Qed.

Lemma rotations_seq (s : list ascii) :
  rotations s = map (λ j, drop j s ++ take j s) (seq 0 (length s)).
Proof.
  unfold rotations. rewrite rotate_loop_seq by lia. by rewrite Nat.sub_0_r.
Qed.

Lemma length_rotations (s : list ascii) : length (rotations s) = length s.
Proof. by rewrite rotations_seq, length_map, length_seq. Qed.

Lemma rotations_lookup (s : list ascii) i :
  (i < length s)%nat → rotations s !! i = Some (drop i s ++ take i s).
Proof.
  intros Hi. rewrite rotations_seq, list_lookup_fmap.
  by rewrite lookup_seq_lt.
Qed.

Lemma length_rotate N (inp : list (list ascii)) :
  Forall (λ s, length s = N) inp →
  length (rotate inp) = (N * length inp)%nat.
Proof.
  unfold rotate. induction 1 as [|s inp Hs _ IH]; simpl; [lia|].
  rewrite length_app, length_rotations, IH. lia.
Qed.

Lemma rotate1_iter (s : list ascii) k :
  (k ≤ length s)%nat → Nat.iter k rotate1 s = drop k s ++ take k s.
Proof.
  induction k as [|k IH]; intros Hk.
  - simpl. by rewrite drop_0, app_nil_r.
  - rewrite Nat.iter_succ, IH by lia.
    destruct (lookup_lt_is_Some_2 s k ltac:(lia)) as [x Hx].
    rewrite (drop_S _ _ _ Hx), (take_S_r _ _ _ Hx).
    unfold rotate1. simpl. rewrite drop_0. by rewrite <- app_assoc.
Qed.

Lemma rotate1_closure (s : list ascii) : Nat.iter (length s) rotate1 s = s.
Proof.
  rewrite rotate1_iter by done.
  by rewrite drop_all, firstn_all.
Qed.

Lemma rotation_length (s v : list ascii) :
  v ∈ rotations s → length v = length s.
Proof.
  rewrite rotations_seq. intros (j & -> & Hj%elem_of_seq)%list_elem_of_fmap.
  rewrite length_app, length_drop, length_take. lia.
Qed.

End Rotation.

(** C6: for input strings of length N, rotate sends, for each input s in
    turn, the N rotations s[i:] + s[:i] for i = 0, 1, ..., N-1 in this
    order; it sends N times as many strings as it receives; and rotating any
    of the strings it sends by one position N times gives that string
    back. *)
Theorem rotate_cyclic (N : nat) (inp : list (list ascii)) :
  Forall (λ s, length s = N) inp →
  rotate inp
  = flat_map (λ s, map (λ i, drop i s ++ take i s) (seq 0 N)) inp
  ∧ length (rotate inp) = (N * length inp)%nat
  ∧ (∀ s, s ∈ inp → ∀ i, (i < N)%nat →
       rotations s !! i = Some (Nat.iter i rotate1 s))
  ∧ (∀ v, v ∈ rotate inp → length v = N ∧ Nat.iter N rotate1 v = v).
Proof.
  intros Hlen. split_and!.
  - unfold rotate. induction Hlen as [|s inp Hs _ IH]; [done|].
    simpl. by rewrite IH, rotations_seq, Hs.
  - by apply length_rotate.
  - intros s Hs i Hi. rewrite Forall_forall in Hlen.
    rewrite rotations_lookup by (rewrite (Hlen s Hs); lia).
    rewrite rotate1_iter; [done|]. rewrite (Hlen s Hs). lia.
  - intros v. unfold rotate. rewrite list_elem_of_In, in_flat_map.
    intros (s & Hs%list_elem_of_In & Hv%list_elem_of_In).
    rewrite Forall_forall in Hlen.
    assert (length v = N) as Hv'.
    { rewrite <- (Hlen s Hs). by apply rotation_length. }
    split; [done|]. rewrite <- Hv'. apply rotate1_closure.
Qed.

Lemma rotate_cyclic_witness :
  let inp := [str "abc"; str "abd"] in
  rotate inp
  = flat_map (λ s, map (λ i, drop i s ++ take i s) (seq 0 3)) inp
  ∧ length (rotate inp) = (3 * length inp)%nat
  ∧ (∀ s, s ∈ inp → ∀ i, (i < 3)%nat →
       rotations s !! i = Some (Nat.iter i rotate1 s))
  ∧ (∀ v, v ∈ rotate inp → length v = 3%nat ∧ Nat.iter 3 rotate1 v = v).
Proof.
  apply (rotate_cyclic 3 [str "abc"; str "abd"]).
  repeat constructor.
Defined.

(** The example in the comment of [rotate]. *)
Example rotate_abcdefg :
  rotate [str "abcdefg"]
  = [str "abcdefg"; str "bcdefga"; str "cdefgab"; str "defgabc";
     str "efgabcd"; str "fgabcde"; str "gabcdef"].
Proof. reflexivity. Qed.

(** ** Runes of strings that are not ASCII *)

Section Runes.

Lemma lor_ge_l a b : a ≤ N.lor a b.
Proof.
  apply N.ldiff_le, N.bits_inj. intros i.
  rewrite N.ldiff_spec, N.lor_spec, N.bits_0.
  by destruct (N.testbit a i), (N.testbit b i).
Qed.

Lemma land_ones_mod a k : N.land a (N.ones k) = a mod 2 ^ k.
Proof. apply N.land_ones. Qed.

Lemma mod_eq a m : m ≠ 0 → ∃ q, a = m * q + a mod m ∧ a mod m < m.
Proof.
  intros Hm. exists (a / m). split; [by apply N.div_mod|by apply N.mod_lt].
Qed.

Ltac decode_step :=
  match goal with
  | |- context [N.ltb ?x ?y] => destruct (N.ltb_spec x y)
  | |- context [N.leb ?x ?y] => destruct (N.leb_spec x y)
  | |- context [N.eqb ?x ?y] => destruct (N.eqb_spec x y)
  | |- context [Nat.ltb ?x ?y] => destruct (Nat.ltb x y)
  | |- context [utf8.continuation ?x] => destruct (utf8.continuation x)
  | |- context [match ?t with [] => _ | _ :: _ => _ end] =>
      is_var t; destruct t
  end; cbn [fst orb negb Nat.leb].

Ltac name_mods :=
  repeat match goal with
  | |- context [?a mod ?m] =>
      let q := fresh "q" in
      let r := fresh "r" in
      let H1 := fresh "Hq" in
      let H2 := fresh "Hr" in
      destruct (mod_eq a m ltac:(done)) as (q & H1 & H2);
      set (r := a mod m) in *; clearbody r
  end.

Ltac lor_bound :=
  first
    [ lia
    | etrans; [|apply lor_ge_l]; lor_bound
    | rewrite N.lor_comm; etrans; [|apply lor_ge_l]; lor_bound ].

(** The code point of a multi-byte sequence is at least [0x80]: a sequence
    that would encode less is not accepted. *)
Lemma DecodeRune_nonascii b t :
  128 ≤ N_of_ascii b → 128 ≤ (utf8.DecodeRuneInString (b :: t)).1.
Proof.
  intros Hb. unfold utf8.DecodeRuneInString, utf8.RuneSelf, utf8.RuneError.
  destruct (N.ltb_spec (N_of_ascii b) 0x80) as [|_]; [lia|].
  generalize dependent (N_of_ascii b). intros s0 Hb.
  unfold utf8.first.
  repeat decode_step; try lia.
  all: repeat match goal with
       | |- context [N_of_ascii ?a] =>
           generalize dependent (N_of_ascii a); intros
       end.
  all: change 0x1F with (N.ones 5); change 0x0F with (N.ones 4).
  all: change 0x07 with (N.ones 3); change 0x3F with (N.ones 6).
  all: rewrite !land_ones_mod, !N.shiftl_mul_pow2.
  all: change (2 ^ 3) with 8; change (2 ^ 4) with 16; change (2 ^ 5) with 32.
  all: change (2 ^ 6) with 64; change (2 ^ 12) with 4096.
  all: change (2 ^ 18) with 262144.
  all: name_mods; lor_bound.
Qed.


End Runes.

(** ** The tests of the dictionary loader *)

Section LoaderTests.

Lemma elem_of_rune_set (X : gset N) l r :
  r ∈ foldl (λ rs r, {[r]} ∪ rs) X l ↔ r ∈ X ∨ r ∈ l.
Proof.
  revert X. induction l as [|a l IH]; intros X; simpl.
  - set_solver.
  - rewrite IH. set_solver.
Qed.

Lemma containsOnly_loop_spec (rs : gset N) l :
  containsOnly_loop rs l = true ↔ ∀ r, r ∈ l → r ∈ rs.
Proof.
  induction l as [|a l IH]; simpl.
  - split; [|done]. by intros _ r ?%elem_of_nil.
  - case_bool_decide as Ha.
    + rewrite IH. split; [|set_solver].
      intros H r [->|?]%elem_of_cons; [done|by apply H].
    + split; [done|]. intros H. destruct Ha. apply H. left.
Qed.

(** [containsOnly s target]: every rune of [s] is a rune of [target]. *)
Lemma containsOnly_runes s target :
  containsOnly s target = true ↔ ∀ r, r ∈ runes s → r ∈ runes target.
Proof.
  unfold containsOnly. rewrite containsOnly_loop_spec.
  setoid_rewrite elem_of_rune_set. set_solver.
Qed.

(** For a target of ASCII bytes: every byte of [s] is a byte of [target]. *)
Lemma containsOnly_ascii s target :
  ascii_only target →
  containsOnly s target = true ↔ Forall (λ b, b ∈ target) s.
Proof.
  intros Ht. rewrite containsOnly_runes, (runes_ascii target Ht).
  induction s as [|b t IH].
  - split; [done|]. by intros _ r ?%elem_of_nil.
  - rewrite Forall_cons. destruct (N.lt_ge_cases (N_of_ascii b) 128) as [Hb|Hb].
    + rewrite runes_cons_ascii by done. rewrite <- IH.
      split.
      * intros H. split; [|intros r Hr; apply H; by right].
        specialize (H (N_of_ascii b) ltac:(left)).
        apply list_elem_of_fmap in H as (b' & Heq & Hb').
        by apply (inj N_of_ascii) in Heq as ->.
      * intros [Hin H] r [->|Hr]%elem_of_cons; [|by apply H].
        by apply list_elem_of_fmap_2.
    + split.
      * intros H. exfalso.
        specialize (H (utf8.DecodeRuneInString (b :: t)).1).
        rewrite runes_unfold in H by done. specialize (H ltac:(left)).
        apply list_elem_of_fmap in H as (b' & Heq & Hb').
        pose proof (DecodeRune_nonascii b t Hb) as Hr.
        unfold ascii_only in Ht. rewrite Forall_forall in Ht.
        specialize (Ht b' Hb'). lia.
      * intros [Hin _]. exfalso.
        unfold ascii_only in Ht. rewrite Forall_forall in Ht.
        specialize (Ht b Hin). lia.
Qed.

Lemma hasAtMostLetters_loop_spec (cs : gset N) n l :
  hasAtMostLetters_loop cs n l = true
  ↔ l = [] ∨ (Z.of_nat (size (list_to_set l ∪ cs)) ≤ n)%Z.
Proof.
  revert cs. induction l as [|c l IH]; intros cs; simpl.
  - split; [by left|done].
  - destruct (Z.ltb_spec n (Z.of_nat (size ({[c]} ∪ cs)))) as [Hn|Hn].
    + split; [done|]. intros [?|H]; [done|]. exfalso.
      assert (size ({[c]} ∪ cs) ≤ size ({[c]} ∪ list_to_set l ∪ cs))%nat.
      { apply subseteq_size. set_solver. }
      lia.
    + rewrite IH. split.
      * intros [->|H]; right.
        -- simpl. by replace ({[c]} ∪ ∅ ∪ cs) with ({[c]} ∪ cs) by set_solver.
        -- by replace ({[c]} ∪ list_to_set l ∪ cs)
             with (list_to_set l ∪ ({[c]} ∪ cs)) by set_solver.
      * intros [?|H]; [done|]. destruct l as [|c' l]; [by left|right].
        by replace (list_to_set (c' :: l) ∪ ({[c]} ∪ cs))
          with ({[c]} ∪ list_to_set (c' :: l) ∪ cs) by set_solver.
Qed.

Lemma size_rune_set (s : list ascii) :
  size (list_to_set (map N_of_ascii s) : gset N) = distinct s.
Proof.
  unfold distinct.
  replace (list_to_set (map N_of_ascii s) : gset N)
    with (list_to_set (N_of_ascii <$> remove_dups s) : gset N).
  - rewrite size_list_to_set, length_fmap; [done|].
    apply NoDup_fmap_2; [apply _|apply NoDup_remove_dups].
  - apply set_eq. intros r. rewrite !elem_of_list_to_set.
    change (map N_of_ascii s) with (N_of_ascii <$> s).
    rewrite !list_elem_of_fmap. by setoid_rewrite elem_of_remove_dups.
Qed.

(** [hasAtMostLetters] on a non-empty ASCII string: it has at most [n]
    distinct letters. *)
Lemma hasAtMostLetters_ascii s n :
  ascii_only s → s ≠ [] →
  hasAtMostLetters s n = true ↔ (Z.of_nat (distinct s) ≤ n)%Z.
Proof.
  intros Hs Hne. unfold hasAtMostLetters.
  rewrite hasAtMostLetters_loop_spec, (runes_ascii s Hs).
  rewrite union_empty_r_L, size_rune_set.
  split; [|by right]. intros [H|H]; [|done]. by destruct s.
Qed.

Lemma elem_of_alphabet b : b ∈ alphabet ↔ is_lower b = true.
Proof.
  rewrite <- (bool_decide_spec (b ∈ alphabet)).
  assert (bool_decide (b ∈ alphabet) = is_lower b) as ->;
    [|apply Is_true_true].
  destruct b as [[] [] [] [] [] [] [] []]; by vm_compute.
Qed.

Lemma is_lower_ascii s :
  Forall (λ b, is_lower b = true) s → ascii_only s.
Proof.
  intros H. eapply Forall_impl; [done|]. intros b. unfold is_lower.
  intros [_ Hb%N.leb_le]%andb_prop. lia.
Qed.

(** The three tests of the loader on a trimmed line: at least 5 bytes, only
    lowercase letters a-z, and at most [n] distinct letters. *)
Lemma keeps_spec n w :
  keeps n w = true
  ↔ (5 ≤ length w)%nat
    ∧ Forall (λ b, is_lower b = true) w
    ∧ (Z.of_nat (distinct w) ≤ n)%Z.
Proof.
  unfold keeps.
  assert (Forall (λ b, b ∈ alphabet) w ↔ Forall (λ b, is_lower b = true) w)
    as Hlow.
  { apply Forall_proper; [|done]. intros b. apply elem_of_alphabet. }
  destruct (Nat.ltb_spec (length w) 5) as [Hl|Hl].
  { split; [done|]. intros [? _]. lia. }
  destruct (containsOnly w alphabet) eqn:Hc; simpl.
  - apply (containsOnly_ascii _ _ alphabet_ascii), Hlow in Hc.
    assert (w ≠ []) as Hne by (intros ->; simpl in Hl; lia).
    pose proof (hasAtMostLetters_ascii w n (is_lower_ascii w Hc) Hne) as Hh.
    destruct (hasAtMostLetters w n); simpl.
    + split; [|done]. intros _. split_and!; [done..|]. by apply Hh.
    + split; [done|]. intros (_ & _ & H%Hh). done.
  - split; [done|]. intros (_ & H%Hlow & _).
    apply (containsOnly_ascii _ _ alphabet_ascii) in H. congruence.
Qed.

End LoaderTests.

(** ** The read loop of the dictionary loader *)

Section ReadLoop.

Variable TrimSpace : list ascii → list ascii.
Variable numLetters : Z.

Lemma split_delim_None d buf : d ∉ buf → split_delim d buf = None.
Proof.
  induction buf as [|b buf IH]; [done|]. intros Hd. simpl.
  rewrite decide_False by set_solver. rewrite IH by set_solver. done.
Qed.

Lemma split_delim_line d l rest :
  d ∉ l → split_delim d (l ++ d :: rest) = Some (l ++ [d], rest).
Proof.
  induction l as [|b l IH]; intros Hd; simpl.
  - by rewrite decide_True.
  - rewrite decide_False by set_solver. rewrite IH by set_solver. done.
Qed.

Lemma unlines_cons l ls : unlines (l :: ls) = l ++ newline :: unlines ls.
Proof. unfold unlines. simpl. by rewrite <- app_assoc. Qed.

(** On a text made of the newline-terminated lines [ls] followed by the
    bytes [last] without a newline, the loop appends the kept words of [ls]
    and leaves at the end of the data: [last] is read together with the
    error and dropped. *)
Lemma read_loop_lines ls last e acc fuel :
  Forall (λ l, newline ∉ l) ls → newline ∉ last →
  (length (unlines ls ++ last) < fuel)%nat →
  read_loop TrimSpace numLetters fuel (mkFile (unlines ls ++ last) e) acc
  = match e with
    | EOF => Done (acc ++ kept TrimSpace numLetters ls)
    | ErrIO => Fatal
    end.
Proof.
  intros Hls Hlast. revert acc fuel.
  induction Hls as [|l ls Hl _ IH]; intros acc fuel Hf.
  - destruct fuel as [|fuel]; [lia|]. cbn [read_loop unlines flat_map app].
    unfold ReadBytes. cbn [data ending]. rewrite split_delim_None by done.
    destruct e; [|done]. unfold kept. simpl. by rewrite app_nil_r.
  - destruct fuel as [|fuel]; [lia|]. cbn [read_loop].
    unfold ReadBytes. cbn [data ending].
    rewrite unlines_cons, <- app_assoc. cbn [app].
    rewrite split_delim_line by done.
    rewrite unlines_cons, <- app_assoc, length_app in Hf. simpl in Hf.
    unfold kept. cbn [map List.filter]. unfold keeps at 1.
    set (w := TrimSpace (l ++ [newline])).
    destruct (length w <? 5)%nat; [apply IH; lia|].
    destruct (containsOnly w alphabet); cbn [negb]; [|apply IH; lia].
    destruct (hasAtMostLetters w numLetters); cbn [negb]; [|apply IH; lia].
    rewrite IH by lia. destruct e; [|done]. unfold kept.
    by rewrite <- app_assoc.
Qed.

(** Every text is a sequence of newline-terminated lines followed by bytes
    without a newline. *)
Lemma lines_decompose (text : list ascii) :
  ∃ ls last, text = unlines ls ++ last
    ∧ Forall (λ l, newline ∉ l) ls ∧ newline ∉ last.
Proof.
  induction text as [|b text (ls & last & -> & Hls & Hlast)].
  - exists [], []. split_and!; [done|done|]. by intros ?%elem_of_nil.
  - destruct (decide (b = newline)) as [->|Hb].
    + exists ([] :: ls), last. split_and!; [done| |done].
      constructor; [|done]. by intros ?%elem_of_nil.
    + destruct Hls as [|l ls Hl Hls].
      * exists [], (b :: last). split_and!; [done|done|]. set_solver.
      * exists ((b :: l) :: ls), last. split_and!; [done| |done].
        constructor; [|done]. set_solver.
Qed.

(** [genAllWords] returns or ends the process: its loop does not run out of
    fuel. *)
Lemma genAllWords_total f :
  genAllWords TrimSpace numLetters f = Fatal
  ∨ ∃ allWords, genAllWords TrimSpace numLetters f = Done allWords.
Proof.
  destruct f as [[text e]|]; [|by left]. unfold genAllWords. cbn [data].
  destruct (lines_decompose text) as (ls & last & -> & Hls & Hlast).
  rewrite read_loop_lines by (done || lia).
  destruct e; [right; by eexists|by left].
Qed.

Lemma genAllWords_unreadable f :
  unreadable f → genAllWords TrimSpace numLetters f = Fatal.
Proof.
  destruct f as [[text e]|]; [|done]. cbn [unreadable ending]. intros ->.
  unfold genAllWords. cbn [data].
  destruct (lines_decompose text) as (ls & last & -> & Hls & Hlast).
  by rewrite read_loop_lines by (done || lia).
Qed.

End ReadLoop.

(** C10: when the words file ends with bytes that no newline terminates,
    the loader returns the words kept from the newline-terminated lines
    before them and nothing for the final line, whether or not its word
    passes the three tests: the result is that of the file without its
    final line. *)
Theorem genAllWords_drops_final_line
    (TrimSpace : list ascii → list ascii) (numLetters : Z)
    (ls : list (list ascii)) (last : list ascii) :
  Forall (λ l, newline ∉ l) ls → newline ∉ last → last ≠ [] →
  genAllWords TrimSpace numLetters (Some (mkFile (unlines ls ++ last) EOF))
  = Done (kept TrimSpace numLetters ls)
  ∧ genAllWords TrimSpace numLetters (Some (mkFile (unlines ls ++ last) EOF))
    = genAllWords TrimSpace numLetters (Some (mkFile (unlines ls) EOF)).
Proof.
  intros Hls Hlast _. unfold genAllWords. cbn [data].
  rewrite read_loop_lines by (done || lia).
  rewrite <- (app_nil_r (unlines ls)) at 2.
  rewrite read_loop_lines; [done|done|by intros ?%elem_of_nil|].
  rewrite app_nil_r. lia.
Qed.

Lemma genAllWords_drops_final_line_witness :
  keeps 7 (TrimSpace_ascii (str "world")) = true
  ∧ genAllWords TrimSpace_ascii 7
      (Some (mkFile (unlines [str "hello"] ++ str "world") EOF))
    = Done (kept TrimSpace_ascii 7 [str "hello"])
  ∧ genAllWords TrimSpace_ascii 7
      (Some (mkFile (unlines [str "hello"] ++ str "world") EOF))
    = genAllWords TrimSpace_ascii 7
        (Some (mkFile (unlines [str "hello"]) EOF)).
Proof.
  split; [by vm_compute|].
  apply (genAllWords_drops_final_line TrimSpace_ascii 7
           [str "hello"] (str "world")).
  - repeat constructor. apply (bool_decide_unpack _). by vm_compute.
  - apply (bool_decide_unpack _). by vm_compute.
  - done.
Defined.

Example genAllWords_hello_world :
  genAllWords TrimSpace_ascii 7
    (Some (mkFile (str "hello" ++ [newline] ++ str "world") EOF))
  = Done [str "hello"].
Proof. by vm_compute. Qed.

Example genAllWords_filters :
  genAllWords TrimSpace_ascii 7
    (Some (mkFile (unlines [str "  pizza "; str "four"; str "Hello";
                            str "isn't"; str "alphabets"; str "zebra1";
                            str "puzzle"]) EOF))
  = Done [str "pizza"; str "puzzle"].
Proof. by vm_compute. Qed.

(** ** The matcher *)

Section Matcher.

Lemma HasPrefix_singleton w c :
  strings.HasPrefix w [c] = true ↔ ∃ t, w = c :: t.
Proof.
  destruct w as [|b t]; simpl.
  - split; [done|]. by intros [? ?].
  - destruct t; case_decide; subst; split; try done; try (by eexists);
      by intros [? [= <-]].
Qed.

(** A one-byte substring is found where the byte is. *)
Lemma Contains_singleton w c : strings.Contains w [c] = true ↔ c ∈ w.
Proof.
  induction w as [|b t IH].
  - simpl. split; [done|]. by intros ?%elem_of_nil.
  - cbn [strings.Contains]. rewrite orb_true_iff, IH, HasPrefix_singleton.
    rewrite elem_of_cons. split.
    + intros [[? [= <-]]|?]; [by left|by right].
    + intros [->|?]; [left; by eexists|by right].
Qed.

Lemma ContainsRune_ascii w c :
  N_of_ascii c < 128 → strings.ContainsRune w (N_of_ascii c) = true ↔ c ∈ w.
Proof.
  intros Hc. unfold strings.ContainsRune, utf8.RuneSelf.
  destruct (N.ltb_spec (N_of_ascii c) 0x80); [|lia].
  rewrite existsb_exists. split.
  - intros (b & Hb%list_elem_of_In & Heq%N.eqb_eq).
    by apply (inj N_of_ascii) in Heq as <-.
  - intros Hin. exists c. split; [by apply list_elem_of_In|apply N.eqb_refl].
Qed.

Lemma filter_bool_Prop {A} (f : A → bool) (P : A → Prop)
    `{∀ x, Decision (P x)} l :
  (∀ x, f x = true ↔ P x) → List.filter f l = filter P l.
Proof.
  intros Hf. induction l as [|a l IH]; [done|].
  simpl. rewrite filter_cons. destruct (f a) eqn:Ha.
  - rewrite decide_True by (by apply Hf). by rewrite IH.
  - rewrite decide_False; [done|]. intros ?%Hf. congruence.
Qed.

(** The two tests of the collecting loop, on an ASCII variant. *)
Lemma qualifies_tests s c w :
  ascii_only s → s !! 0%nat = Some c →
  strings.Contains w (string_of_rune (N_of_ascii c)) && containsOnly w s = true
  ↔ qualifies s w.
Proof.
  intros Hs Hc.
  assert (N_of_ascii c < 128) as Hc'.
  { unfold ascii_only in Hs. rewrite Forall_forall in Hs. apply Hs.
    by eapply list_elem_of_lookup_2. }
  rewrite string_of_rune_ascii by done.
  rewrite andb_true_iff, Contains_singleton, containsOnly_ascii by done.
  unfold qualifies. split.
  - intros [? ?]. split; [by exists c|done].
  - intros [(c' & Hc'' & ?) ?]. split; [congruence|done].
Qed.

Lemma collect_loop_spec s c allWords words :
  ascii_only s → s !! 0%nat = Some c →
  collect_loop s allWords words
  = Done (words ++ filter (qualifies s) allWords).
Proof.
  intros Hs Hc. revert words.
  induction allWords as [|w allWords IH]; intros words.
  - simpl. by rewrite app_nil_r.
  - cbn [collect_loop]. unfold index. rewrite Hc. cbn [mbind result_bind].
    rewrite filter_cons.
    pose proof (qualifies_tests s c w Hs Hc) as Hq.
    destruct (strings.Contains w (string_of_rune (N_of_ascii c))); cbn [negb].
    + destruct (containsOnly w s); simpl in Hq.
      * rewrite decide_True by (by apply Hq).
        by rewrite IH, <- app_assoc.
      * rewrite decide_False; [by rewrite IH|]. intros ?%Hq. done.
    + rewrite decide_False; [by rewrite IH|]. intros ?%Hq. done.
Qed.

(** With no letter at [s[0]] the loop panics at the first word. *)
Lemma collect_loop_empty allWords words :
  collect_loop [] allWords words
  = match allWords with [] => Done words | _ :: _ => Panic end.
Proof. by destruct allWords. Qed.

Lemma containsAll_loop_spec w rs b :
  containsAll_loop w rs b = b && forallb (strings.ContainsRune w) rs.
Proof.
  revert b. induction rs as [|r rs IH]; intros b; simpl.
  - by rewrite andb_true_r.
  - rewrite IH. by destruct (strings.ContainsRune w r), b.
Qed.

(** The pangram test of the scoring loop, on an ASCII variant. *)
Lemma containsAll_pangram s w :
  ascii_only s → containsAll_loop w (runes s) true = true ↔ pangram s w.
Proof.
  intros Hs. rewrite containsAll_loop_spec, (runes_ascii s Hs).
  cbn [andb]. unfold pangram. rewrite forallb_forall, Forall_forall.
  unfold ascii_only in Hs. rewrite Forall_forall in Hs. split.
  - intros H b Hb. apply ContainsRune_ascii; [by apply Hs|].
    apply H, in_map. by apply list_elem_of_In.
  - intros H r (b & <- & Hb%list_elem_of_In)%in_map_iff.
    apply ContainsRune_ascii; [by apply Hs|by apply H].
Qed.

Lemma int_add_small (a b : Z) :
  (int_min ≤ a + b ≤ int_max)%Z → int_add a b = (a + b)%Z.
Proof.
  unfold int_add, int_wrap, int_min, int_max. intros H.
  rewrite Z.mod_small; lia.
Qed.

(** The scoring loop: whether a pangram was seen, and three points for
    every pangram and one for every other word, as long as the sum is an
    [int]. *)
Lemma score_loop_spec s ws some pts :
  ascii_only s →
  (0 ≤ pts)%Z → (pts + 3 * Z.of_nat (length ws) ≤ int_max)%Z →
  score_loop s ws some pts
  = (some || bool_decide (Exists (pangram s) ws),
     pts + 3 * Z.of_nat (length (filter (pangram s) ws))
         + 1 * Z.of_nat (length (filter (λ w, ¬ pangram s w) ws)))%Z.
Proof.
  intros Hs. revert some pts.
  induction ws as [|w ws IH]; intros some pts Hp Hmax.
  - cbn [score_loop]. rewrite !filter_nil.
    rewrite bool_decide_eq_false_2 by (by intros ?%Exists_nil).
    rewrite orb_false_r. f_equal. simpl. lia.
  - cbn [score_loop]. rewrite !filter_cons.
    pose proof (containsAll_pangram s w Hs) as Hpan.
    cbn [length] in Hmax.
    destruct (containsAll_loop w (runes s) true).
    + assert (pangram s w) as Hw by (by apply Hpan).
      rewrite decide_True by done.
      rewrite (decide_False (P := ¬ pangram s w)) by (by intros ?).
      rewrite int_add_small by (unfold int_min; lia).
      rewrite IH by lia. f_equal.
      * rewrite (bool_decide_eq_true_2 (Exists _ (w :: ws)));
          [by rewrite orb_true_r|by left].
      * cbn [length]. lia.
    + assert (¬ pangram s w) as Hw by (intros ?%Hpan; done).
      rewrite decide_False by done. rewrite decide_True by done.
      rewrite int_add_small by (unfold int_min; lia).
      rewrite IH by lia. f_equal.
      * f_equal. apply bool_decide_ext. rewrite Exists_cons. tauto.
      * cbn [length]. lia.
Qed.

End Matcher.

Section MatchVariant.

Lemma score_loop_some s ws some pts :
  ascii_only s →
  (score_loop s ws some pts).1 = some || bool_decide (Exists (pangram s) ws).
Proof.
  intros Hs. revert some pts. induction ws as [|w ws IH]; intros some pts.
  - cbn [score_loop fst].
    rewrite bool_decide_eq_false_2 by (by intros ?%Exists_nil).
    by rewrite orb_false_r.
  - cbn [score_loop]. pose proof (containsAll_pangram s w Hs) as Hpan.
    destruct (containsAll_loop w (runes s) true); rewrite IH.
    + rewrite (bool_decide_eq_true_2 (Exists _ (w :: ws)));
        [by rewrite orb_true_r|]. left. by apply Hpan.
    + f_equal. apply bool_decide_ext. rewrite Exists_cons.
      split; [tauto|]. intros [?%Hpan|?]; done.
Qed.

Lemma matchVariant_unfold allWords s c :
  ascii_only s → s !! 0%nat = Some c →
  matchVariant allWords s
  = let qs := filter (qualifies s) allWords in
    if (length qs <? 10)%nat then Done None
    else if negb (score_loop s qs false 0).1 then Done None
    else Done (Some (mkPuzzle s qs (score_loop s qs false 0).2)).
Proof.
  intros Hs Hc. unfold matchVariant.
  rewrite (collect_loop_spec s c) by done. cbn [app mbind result_bind].
  cbv zeta. destruct (_ <? _)%nat; [done|].
  by destruct (score_loop _ _ _ _).
Qed.

Lemma matchVariant_emitted allWords s p :
  matchVariant allWords s = Done (Some p) → ∃ c, s !! 0%nat = Some c.
Proof.
  destruct s as [|c s]; [|by exists c].
  unfold matchVariant. rewrite collect_loop_empty.
  by destruct allWords.
Qed.

End MatchVariant.

(** C2: for a variant s (a non-empty string of ASCII letters) and any
    dictionary, the pass of the matcher for s returns, and it sends a puzzle
    if and only if at least 10 words of the dictionary qualify for s and one
    of the qualifying words uses every letter of s; the puzzle it sends is
    one for s. *)
Theorem matchVariant_emits_iff (allWords : list (list ascii))
    (s : list ascii) :
  ascii_only s → s ≠ [] →
  ∃ r, matchVariant allWords s = Done r
    ∧ (is_Some r
       ↔ (10 ≤ length (filter (qualifies s) allWords))%nat
         ∧ Exists (pangram s) (filter (qualifies s) allWords))
    ∧ (∀ p, r = Some p → letters p = s).
Proof.
  intros Hs Hne. destruct s as [|c s']; [done|]. set (s := c :: s') in *.
  rewrite (matchVariant_unfold allWords s c) by done. cbv zeta.
  set (qs := filter (qualifies s) allWords).
  rewrite score_loop_some by done. cbn [orb].
  destruct (Nat.ltb_spec (length qs) 10) as [Hl|Hl].
  { eexists. split; [done|]. split; [|done].
    split; [by intros [? ?]|]. intros [? _]. lia. }
  case_bool_decide as Hp; cbn [negb].
  - eexists. split; [done|]. split; [|by intros p [= <-]].
    split; [done|]. by intros _.
  - eexists. split; [done|]. split; [|done].
    split; [by intros [? ?]|]. by intros [_ ?].
Qed.

Lemma matchVariant_emits_iff_witness :
  ∃ r, matchVariant dict_ab (str "ab") = Done r
    ∧ (is_Some r
       ↔ (10 ≤ length (filter (qualifies (str "ab")) dict_ab))%nat
         ∧ Exists (pangram (str "ab")) (filter (qualifies (str "ab")) dict_ab))
    ∧ (∀ p, r = Some p → letters p = str "ab").
Proof.
  apply (matchVariant_emits_iff dict_ab (str "ab")).
  - repeat constructor; by vm_compute.
  - done.
Defined.

(** C3: the score of a puzzle sent for a variant s is 3 times the number of
    qualifying words that use every letter of s plus 1 times the number of
    qualifying words that do not, for every dictionary whose triple length
    is an int. *)
Theorem matchVariant_score (allWords : list (list ascii))
    (s : list ascii) (p : puzzle) :
  ascii_only s →
  (3 * Z.of_nat (length allWords) ≤ int_max)%Z →
  matchVariant allWords s = Done (Some p) →
  maxPts p
  = (3 * Z.of_nat (length (filter (pangram s)
                             (filter (qualifies s) allWords)))
     + 1 * Z.of_nat (length (filter (λ w, ¬ pangram s w)
                               (filter (qualifies s) allWords))))%Z.
Proof.
  intros Hs Hmax Hp.
  destruct (matchVariant_emitted _ _ _ Hp) as [c Hc].
  rewrite (matchVariant_unfold allWords s c) in Hp by done. cbv zeta in Hp.
  set (qs := filter (qualifies s) allWords) in *.
  assert (length qs ≤ length allWords)%nat as Hlen by apply length_filter.
  rewrite score_loop_spec in Hp by (done || lia). cbn [fst snd] in Hp.
  destruct (_ <? _)%nat; [done|]. destruct (negb _); [done|].
  injection Hp as <-. cbn [maxPts]. lia.
Qed.

Lemma matchVariant_score_witness :
  ∃ p, matchVariant dict_ab (str "ab") = Done (Some p)
    ∧ maxPts p
      = (3 * Z.of_nat (length (filter (pangram (str "ab"))
                                 (filter (qualifies (str "ab")) dict_ab)))
         + 1 * Z.of_nat (length (filter (λ w, ¬ pangram (str "ab") w)
                                   (filter (qualifies (str "ab")) dict_ab))))%Z.
Proof.
  eexists. split; [by vm_compute|].
  apply (matchVariant_score dict_ab (str "ab")).
  - repeat constructor; by vm_compute.
  - by vm_compute.
  - by vm_compute.
Defined.

Example matchVariant_ab :
  matchVariant dict_ab (str "ab")
  = Done (Some (mkPuzzle (str "ab")
      [str "ababa"; str "babab"; str "aabbb"; str "aaaab"; str "abbbb";
       str "aaaaa"; str "baaaa"; str "bbbba"; str "aabba"; str "bbaab"]
      28)).
Proof. by vm_compute. Qed.

(** Nine qualifying words are not enough, and neither are ten without a
    word that uses every letter. *)
Example matchVariant_nine :
  matchVariant (take 9 dict_ab) (str "ab") = Done None.
Proof. by vm_compute. Qed.

Example matchVariant_no_pangram :
  matchVariant (replicate 10 (str "aaaaa")) (str "ab") = Done None.
Proof. by vm_compute. Qed.

(** C4: for a variant s of ASCII letters with first letter c and any
    dictionary, the collecting loop of the matcher returns the words of the
    dictionary that contain c and consist of letters of s only, in the order
    of the dictionary; these are the words of the puzzle sent for s. *)
Theorem matchVariant_qualifying (allWords : list (list ascii))
    (s : list ascii) (c : ascii) :
  ascii_only s → s !! 0%nat = Some c →
  collect_loop s allWords [] = Done (filter (qualifies s) allWords)
  ∧ (∀ w, qualifies s w ↔ c ∈ w ∧ Forall (λ b, b ∈ s) w)
  ∧ (∀ w, collect_loop s [w] []
          = Done (if decide (c ∈ w ∧ Forall (λ b, b ∈ s) w) then [w] else []))
  ∧ (∀ p, matchVariant allWords s = Done (Some p) →
          letters p = s
          ∧ words p = filter (qualifies s) allWords
          ∧ words p `sublist_of` allWords).
Proof.
  intros Hs Hc.
  assert (∀ w, qualifies s w ↔ c ∈ w ∧ Forall (λ b, b ∈ s) w) as Hq.
  { intros w. unfold qualifies. split.
    - intros [(c' & Hc' & ?) ?]. split; [congruence|done].
    - intros [? ?]. split; [by exists c|done]. }
  split_and!.
  - by rewrite (collect_loop_spec s c).
  - done.
  - intros w. rewrite (collect_loop_spec s c) by done.
    cbn [app]. rewrite filter_cons, filter_nil.
    destruct (decide (qualifies s w)) as [H|H].
    + rewrite decide_True; [done|by apply Hq].
    + rewrite decide_False; [done|]. intros ?%Hq. done.
  - intros p Hp.
    rewrite (matchVariant_unfold allWords s c) in Hp by done.
    cbv zeta in Hp. destruct (_ <? _)%nat; [done|].
    destruct (negb _); [done|]. injection Hp as <-. cbn [letters words].
    split_and!; [done|done|apply sublist_filter].
Qed.

Lemma matchVariant_qualifying_witness :
  collect_loop (str "ab") dict_ab []
  = Done (filter (qualifies (str "ab")) dict_ab)
  ∧ (∀ w, qualifies (str "ab") w
          ↔ "a"%char ∈ w ∧ Forall (λ b, b ∈ str "ab") w)
  ∧ (∀ w, collect_loop (str "ab") [w] []
          = Done (if decide ("a"%char ∈ w ∧ Forall (λ b, b ∈ str "ab") w)
                  then [w] else []))
  ∧ (∀ p, matchVariant dict_ab (str "ab") = Done (Some p) →
          letters p = str "ab"
          ∧ words p = filter (qualifies (str "ab")) dict_ab
          ∧ words p `sublist_of` dict_ab).
Proof.
  apply (matchVariant_qualifying dict_ab (str "ab") "a"%char).
  - repeat constructor; by vm_compute.
  - reflexivity.
Defined.

(** ** The puzzle writer *)

Section WriterProps.

Variable can_create : list ascii → bool.

Lemma Fprintln_lookup (path text : list ascii) (fs : files) (c : list ascii) :
  fs !! path = Some c →
  Fprintln path text fs !! path = Some (c ++ text ++ [newline]).
Proof. intros H. unfold Fprintln. by rewrite lookup_alter_eq, H. Qed.

Lemma Fprintln_lookup_ne (path path' text : list ascii) (fs : files) :
  path ≠ path' → Fprintln path text fs !! path' = fs !! path'.
Proof. intros H. unfold Fprintln. by rewrite lookup_alter_ne. Qed.

Lemma print_words_lookup (path : list ascii) (ws : list (list ascii))
    (fs : files) (c : list ascii) :
  fs !! path = Some c →
  foldl (λ fs w, Fprintln path w fs) fs ws !! path
  = Some (c ++ flat_map (λ w, w ++ [newline]) ws).
Proof.
  revert fs c. induction ws as [|w ws IH]; intros fs c Hc; simpl.
  - by rewrite app_nil_r.
  - rewrite (IH _ (c ++ w ++ [newline])) by (by apply Fprintln_lookup).
    by rewrite <- !app_assoc.
Qed.

Lemma print_words_lookup_ne (path path' : list ascii)
    (ws : list (list ascii)) (fs : files) :
  path ≠ path' →
  foldl (λ fs w, Fprintln path w fs) fs ws !! path' = fs !! path'.
Proof.
  intros Hne. revert fs. induction ws as [|w ws IH]; intros fs; simpl; [done|].
  by rewrite IH, Fprintln_lookup_ne.
Qed.

(** One puzzle: its file holds its text and nothing else, and no other file
    changes. *)
Lemma writePuzzle_file (p : puzzle) (fs : files) :
  can_create (puzzle_file p) = true →
  ∃ fs', writePuzzle can_create p fs = Done fs'
    ∧ fs' !! puzzle_file p = Some (puzzle_text p)
    ∧ ∀ path, path ≠ puzzle_file p → fs' !! path = fs !! path.
Proof.
  intros Hc. unfold writePuzzle. fold (puzzle_file p). rewrite Hc.
  eexists. split; [done|]. split.
  - rewrite (Fprintln_lookup _ _ _
               (flat_map (λ w, w ++ [newline]) (words p))); [done|].
    rewrite (print_words_lookup _ _ _ []); [done|]. apply lookup_insert_eq.
  - intros path Hne. rewrite Fprintln_lookup_ne by done.
    rewrite print_words_lookup_ne by done. by rewrite lookup_insert_ne.
Qed.

Lemma writePuzzle_fatal (p : puzzle) (fs : files) :
  can_create (puzzle_file p) = false → writePuzzle can_create p fs = Fatal.
Proof. intros Hc. unfold writePuzzle. fold (puzzle_file p). by rewrite Hc. Qed.

Lemma puzzle_file_inj p q :
  puzzle_file p = puzzle_file q → letters p = letters q.
Proof.
  unfold puzzle_file. intros H%app_inv_head. by apply app_inv_tail in H.
Qed.

Lemma writePuzzles_app (ps qs : list puzzle) (fs : files) :
  writePuzzles can_create (ps ++ qs) fs
  = fs' ← writePuzzles can_create ps fs; writePuzzles can_create qs fs'.
Proof.
  revert fs. induction ps as [|p ps IH]; intros fs; [done|].
  cbn [app writePuzzles].
  destruct (writePuzzle can_create p fs); cbn [mbind result_bind]; by rewrite ?IH.
Qed.

Lemma writePuzzles_Done (ps : list puzzle) (fs : files) :
  (∀ p, p ∈ ps → can_create (puzzle_file p) = true) →
  ∃ fs', writePuzzles can_create ps fs = Done fs'
    ∧ ∀ path, (∀ p, p ∈ ps → path ≠ puzzle_file p) → fs' !! path = fs !! path.
Proof.
  revert fs. induction ps as [|p ps IH]; intros fs Hc.
  - exists fs. by split.
  - destruct (writePuzzle_file p fs) as (fs1 & H1 & _ & Hother).
    { apply Hc. left. }
    destruct (IH fs1) as (fs' & H' & Hother').
    { intros q Hq. apply Hc. by right. }
    exists fs'. cbn [writePuzzles]. rewrite H1. split; [done|].
    intros path Hpath. rewrite Hother'.
    + apply Hother, Hpath. left.
    + intros q Hq. apply Hpath. by right.
Qed.

Lemma writePuzzles_last (ps : list puzzle) (p : puzzle) (fs : files) :
  (∀ q, q ∈ ps ++ [p] → can_create (puzzle_file q) = true) →
  ∃ fs', writePuzzles can_create (ps ++ [p]) fs = Done fs'
    ∧ fs' !! puzzle_file p = Some (puzzle_text p).
Proof.
  intros Hc. rewrite writePuzzles_app.
  destruct (writePuzzles_Done ps fs) as (fs1 & -> & _).
  { intros q Hq. apply Hc. set_solver. }
  cbn [mbind result_bind writePuzzles].
  destruct (writePuzzle_file p fs1) as (fs' & -> & Hp & _).
  { apply Hc. set_solver. }
  by exists fs'.
Qed.

Lemma writePuzzles_final (ps : list puzzle) (p : puzzle) (fs fs' : files) :
  (∀ q, q ∈ ps → can_create (puzzle_file q) = true) →
  writePuzzles can_create ps fs = Done fs' →
  p ∈ ps → (∀ q, q ∈ ps → letters q = letters p → q = p) →
  fs' !! puzzle_file p = Some (puzzle_text p).
Proof.
  revert fs. induction ps as [|q ps IH]; intros fs Hc Hrun Hp Huniq.
  { by apply elem_of_nil in Hp. }
  cbn [writePuzzles] in Hrun.
  destruct (writePuzzle_file q fs) as (fs1 & H1 & Hq & _).
  { apply Hc. left. }
  rewrite H1 in Hrun. cbn [mbind result_bind] in Hrun.
  destruct (decide (p ∈ ps)) as [Hin|Hin].
  - eapply IH; [|done|done|].
    + intros; apply Hc; by right.
    + intros; apply Huniq; [by right|done].
  - apply elem_of_cons in Hp as [->|?]; [|done].
    destruct (writePuzzles_Done ps fs1) as (fs2 & H2 & Hother).
    { intros; apply Hc; by right. }
    rewrite H2 in Hrun. injection Hrun as <-.
    rewrite Hother; [done|].
    intros q' Hq' Heq%puzzle_file_inj. apply Hin.
    rewrite <- (Huniq q'); [done|by right|done].
Qed.

End WriterProps.

(** C7: when every file of the puzzles received can be created, the writer
    returns; right after it has consumed a puzzle, the file named by the
    letters of the puzzle followed by ".txt", in the directory ./puzzels,
    holds the words of the puzzle in their order, each followed by a
    newline, then the score in decimal followed by a newline, and nothing
    else; at the end this is what the file of every puzzle holds whose
    letters no other puzzle has, and a file that is not the file of a puzzle
    received is left as it was. *)
Theorem writePuzzles_files (can_create : list ascii → bool)
    (ps : list puzzle) (fs : files) :
  (∀ p, p ∈ ps → can_create (puzzle_file p) = true) →
  ∃ fs', writePuzzles can_create ps fs = Done fs'
    ∧ (∀ i p, ps !! i = Some p →
         puzzle_file p = str "./puzzels/" ++ letters p ++ str ".txt"
         ∧ ∃ fsi, writePuzzles can_create (take (S i) ps) fs = Done fsi
             ∧ fsi !! puzzle_file p
               = Some (flat_map (λ w, w ++ [newline]) (words p)
                       ++ itoa (maxPts p) ++ [newline]))
    ∧ (∀ p, p ∈ ps → (∀ q, q ∈ ps → letters q = letters p → q = p) →
         fs' !! puzzle_file p = Some (puzzle_text p))
    ∧ (∀ path, (∀ p, p ∈ ps → path ≠ puzzle_file p) →
         fs' !! path = fs !! path).
Proof.
  intros Hc.
  destruct (writePuzzles_Done can_create ps fs Hc) as (fs' & Hrun & Hother).
  exists fs'. split_and!; [done| | |done].
  - intros i p Hi. split; [done|].
    rewrite (take_S_r _ _ _ Hi). apply writePuzzles_last.
    intros q Hq. apply Hc.
    apply elem_of_app in Hq as [Hq|Hq].
    + by eapply subseteq_take.
    + apply list_elem_of_singleton in Hq as ->.
      by eapply list_elem_of_lookup_2.
  - intros p Hp Huniq. by eapply writePuzzles_final.
Qed.

Lemma writePuzzles_files_witness :
  let p := mkPuzzle (str "ab") [str "ababa"; str "aaaaa"] 4 in
  ∃ fs', writePuzzles (λ _, true) [p] ∅ = Done fs'
    ∧ fs' !! str "./puzzels/ab.txt"
      = Some (str "ababa" ++ [newline] ++ str "aaaaa" ++ [newline]
              ++ str "4" ++ [newline]).
Proof.
  intros p.
  destruct (writePuzzles_files (λ _, true) [p] ∅ ltac:(done))
    as (fs' & Hrun & _ & Hfinal & _).
  exists fs'. split; [done|].
  apply (Hfinal p); [left|].
  intros q ->%list_elem_of_singleton _. done.
Defined.

Example puzzle_text_ba :
  puzzle_file (mkPuzzle (str "ba") [str "babab"; str "bbbbb"] 4)
  = str "./puzzels/ba.txt"
  ∧ puzzle_text (mkPuzzle (str "ba") [str "babab"; str "bbbbb"] 4)
    = str "babab" ++ [newline] ++ str "bbbbb" ++ [newline]
      ++ str "4" ++ [newline].
Proof. by vm_compute. Qed.

(** ** The pool of matchers *)

Section Pool.

Variable allWords : list (list ascii).

Lemma held_insert (ws : list worker) i w0 w :
  ws !! i = Some w0 →
  held w0 ++ flat_map held (<[i := w]> ws) ≡ₚ held w ++ flat_map held ws.
Proof.
  revert i. induction ws as [|x ws IH]; intros [|i] Hi; try done.
  - injection Hi as ->. cbn [insert list_insert flat_map].
    rewrite !app_assoc. apply Permutation_app_tail, Permutation_app_comm.
  - cbn [insert list_insert flat_map].
    rewrite (Permutation_app_swap_app (held w0)).
    rewrite (Permutation_app_swap_app (held w)).
    apply Permutation_app_head, IH, Hi.
Qed.

Lemma puzzles_of_Done v r :
  matchVariant allWords v = Done r → puzzles_of allWords v = held (after_match r).
Proof. intros H. unfold puzzles_of. rewrite H. by destruct r. Qed.

Lemma pool_step_puzzles st st' :
  pool_step allWords st st' → pool_puzzles allWords st' ≡ₚ pool_puzzles allWords st.
Proof.
  unfold pool_puzzles.
  destruct 1 as [i v q ws out r Hi Hr|i p q ws out Hi|i ws out Hi];
    cbn [emitted pool_workers queue flat_map].
  - pose proof (held_insert ws i Idle (after_match r) Hi) as H.
    cbn [held app] in H. rewrite H, (puzzles_of_Done v r Hr).
    apply Permutation_app_head. rewrite !app_assoc.
    apply Permutation_app_tail, Permutation_app_comm.
  - pose proof (held_insert ws i (Holding p) Idle Hi) as H.
    cbn [held app] in H. rewrite <- app_assoc.
    apply Permutation_app_head. rewrite app_assoc.
    apply Permutation_app_tail, H.
  - pose proof (held_insert ws i Idle Exited Hi) as H.
    cbn [held app] in H. by rewrite H.
Qed.

Lemma pool_step_inv k st st' :
  pool_step allWords st st' → pool_inv k st → pool_inv k st'.
Proof.
  unfold pool_inv.
  destruct 1 as [i v q ws out r Hi Hr|i p q ws out Hi|i ws out Hi];
    cbn [pool_workers queue]; intros [Hlen Hex];
    (split; [by rewrite length_insert|]); [| |done].
  - intros Hin. exfalso.
    apply list_elem_of_lookup in Hin as [j Hj].
    destruct (decide (i = j)) as [->|Hne].
    + rewrite list_lookup_insert_eq in Hj by (by eapply lookup_lt_Some).
      by destruct r.
    + rewrite list_lookup_insert_ne in Hj by done.
      by specialize (Hex (list_elem_of_lookup_2 _ _ _ Hj)).
  - intros Hin. apply Hex.
    apply list_elem_of_lookup in Hin as [j Hj].
    destruct (decide (i = j)) as [->|Hne].
    + by rewrite list_lookup_insert_eq in Hj by (by eapply lookup_lt_Some).
    + rewrite list_lookup_insert_ne in Hj by done.
      by eapply list_elem_of_lookup_2.
Qed.

Lemma pool_rtc_inv k st st' :
  rtc (pool_step allWords) st st' →
  pool_inv k st → pool_inv k st' ∧ pool_puzzles allWords st' ≡ₚ pool_puzzles allWords st.
Proof.
  induction 1 as [st|st st1 st' Hstep _ IH]; intros Hinv; [done|].
  destruct (IH (pool_step_inv k _ _ Hstep Hinv)) as [Hinv' Hp].
  split; [done|]. by rewrite Hp, (pool_step_puzzles _ _ Hstep).
Qed.

Lemma held_Exited ws :
  Forall (λ w, w = Exited) ws → flat_map held ws = [].
Proof. induction 1 as [|w ws -> _ IH]; [done|]. done. Qed.

Lemma held_Idle k : flat_map held (replicate k Idle) = [].
Proof. induction k as [|k IH]; [done|]. done. Qed.

(** Whatever the schedule, when the workers have returned they have sent
    the puzzles of the variants, each once. *)
Lemma pool_run_puzzles k vs out :
  (1 ≤ k)%nat → pool_run allWords k vs out →
  out ≡ₚ flat_map (puzzles_of allWords) vs.
Proof.
  intros Hk (q & ws & Hrun & Hws).
  apply (pool_rtc_inv k) in Hrun as [[Hlen Hq] Hp].
  - unfold pool_puzzles in Hp.
    cbn [emitted pool_workers queue app] in *.
    rewrite held_Exited, held_Idle in Hp by done.
    rewrite Hq in Hp.
    + cbn [flat_map app] in Hp. by rewrite app_nil_r in Hp.
    + destruct Hws as [|w ws -> _]; [simpl in Hlen; lia|left].
  - split; cbn [pool_workers queue]; [by rewrite length_replicate|].
    by intros [[=] _]%elem_of_replicate.
Qed.

Lemma matchWords_puzzles_of vs out :
  matchWords allWords vs = Done out →
  out = flat_map (puzzles_of allWords) vs
  ∧ Forall (λ v, ∃ r, matchVariant allWords v = Done r) vs.
Proof.
  unfold matchWords. revert out.
  induction vs as [|v vs IH]; intros out Hrun; cbn [for_each] in Hrun.
  - by injection Hrun as <-.
  - unfold puzzles_of at 1. cbn [flat_map].
    destruct (matchVariant allWords v) as [r| | |] eqn:Hv; try done.
    cbn [mbind result_bind] in Hrun.
    destruct (for_each _ vs) as [outs| | |]; try done.
    cbn [mbind result_bind] in Hrun. injection Hrun as <-.
    destruct (IH outs eq_refl) as [-> Hall].
    split; [by destruct r|]. constructor; [by exists r|done].
Qed.

(** One worker can take every variant in turn. *)
Lemma pool_sequential ws vs out :
  ws !! 0%nat = Some Idle →
  Forall (λ v, ∃ r, matchVariant allWords v = Done r) vs →
  rtc (pool_step allWords) (mkPool vs ws out)
    (mkPool [] ws (out ++ flat_map (puzzles_of allWords) vs)).
Proof.
  intros H0 Hvs. revert out.
  induction Hvs as [|v vs [r Hr] _ IH]; intros out.
  - cbn [flat_map]. by rewrite app_nil_r.
  - cbn [flat_map]. rewrite (puzzles_of_Done v r Hr), app_assoc.
    eapply rtc_l; [by apply (pool_recv _ 0 v vs ws out r)|].
    destruct r as [p|]; cbn [after_match held].
    + eapply rtc_l.
      { apply (pool_send _ 0 p). apply list_lookup_insert_eq.
        by eapply lookup_lt_Some. }
      rewrite list_insert_insert_eq, (list_insert_id _ _ _ H0). apply IH.
    + rewrite (list_insert_id _ _ _ H0), app_nil_r. apply IH.
Qed.

(** When [in] is closed and empty, the waiting workers return. *)
Lemma pool_exit_all out a b :
  rtc (pool_step allWords)
    (mkPool [] (replicate a Exited ++ replicate b Idle) out)
    (mkPool [] (replicate (a + b) Exited) out).
Proof.
  revert a. induction b as [|b IH]; intros a.
  - by rewrite Nat.add_0_r, app_nil_r.
  - eapply rtc_l.
    + apply (pool_exit _ a). rewrite lookup_app_r by (by rewrite length_replicate).
      by rewrite length_replicate, Nat.sub_diag.
    + replace (<[a:=Exited]> (replicate a Exited ++ replicate (S b) Idle))
        with (replicate (S a) Exited ++ replicate b Idle).
      * replace (a + S b)%nat with (S a + b)%nat by lia. apply IH.
      * rewrite replicate_S_end, <- app_assoc.
        rewrite insert_app_r_alt by (by rewrite length_replicate).
        by rewrite length_replicate, Nat.sub_diag.
Qed.

(** The puzzles that [matchWords] sends as the only receiver are the
    puzzles of a run of the pool, for any number of workers. *)
Lemma pool_run_sequential k vs out :
  (1 ≤ k)%nat → matchWords allWords vs = Done out →
  pool_run allWords k vs out.
Proof.
  intros Hk [-> Hvs]%matchWords_puzzles_of.
  exists [], (replicate k Exited). split; [|by apply Forall_replicate].
  etrans.
  - apply pool_sequential; [|done]. destruct k; [lia|done].
  - apply (pool_exit_all _ 0 k).
Qed.

End Pool.

(** C8: for every dictionary and every sequence of variants, whatever the
    numbers of workers (at least one each), 1 and 50 for instance, and
    whatever the order in which the workers take the variants and hand over
    their puzzles, two runs of the pool send the same puzzles, each as many
    times, possibly in another order; they are the puzzles that matchWords
    sends when it runs alone. *)
Theorem pool_same_puzzles (allWords : list (list ascii))
    (vs : list (list ascii)) (k1 k2 : nat) (out1 out2 : list puzzle) :
  (1 ≤ k1)%nat → (1 ≤ k2)%nat →
  pool_run allWords k1 vs out1 → pool_run allWords k2 vs out2 →
  out1 ≡ₚ out2
  ∧ (∀ out, matchWords allWords vs = Done out → out1 ≡ₚ out).
Proof.
  intros Hk1 Hk2 H1%pool_run_puzzles H2%pool_run_puzzles; [|done..].
  split; [by rewrite H1, H2|].
  intros out [-> _]%matchWords_puzzles_of. done.
Qed.

(** One worker sends the puzzles in the order of the variants. *)
Example pool_run_one_worker :
  pool_run dict_ab 1 [str "ab"; str "ba"] [puzzle_ab; puzzle_ba].
Proof. apply pool_run_sequential; [lia|by vm_compute]. Qed.

(** Of fifty workers, one takes [ab] and another [ba], and the second is
    the first to hand over its puzzle. *)
Example pool_run_fifty_workers :
  pool_run dict_ab 50 [str "ab"; str "ba"] [puzzle_ba; puzzle_ab].
Proof.
  exists [], (replicate 50 Exited). split; [|by apply Forall_replicate].
  eapply rtc_l.
  { apply (pool_recv _ 0 _ _ _ _ (Some puzzle_ab)); [done|by vm_compute]. }
  eapply rtc_l.
  { apply (pool_recv _ 1 _ _ _ _ (Some puzzle_ba)); [done|by vm_compute]. }
  eapply rtc_l; [by apply (pool_send _ 1 puzzle_ba)|].
  eapply rtc_l; [by apply (pool_send _ 0 puzzle_ab)|].
  apply (pool_exit_all _ _ 0 50).
Qed.

Lemma pool_same_puzzles_witness :
  [puzzle_ab; puzzle_ba] ≡ₚ [puzzle_ba; puzzle_ab]
  ∧ (∀ out, matchWords dict_ab [str "ab"; str "ba"] = Done out →
            [puzzle_ab; puzzle_ba] ≡ₚ out).
Proof.
  apply (pool_same_puzzles dict_ab [str "ab"; str "ba"] 1 50).
  - lia.
  - lia.
  - exact pool_run_one_worker.
  - exact pool_run_fifty_workers.
Defined.

(** ** The program with an unreadable words file *)

Section Unreadable.

Variable TrimSpace : list ascii → list ascii.
Variable can_create : list ascii → bool.
Variables numLetters parallel : Z.
Variable wordsFile : option file.
Hypothesis Hunreadable : unreadable wordsFile.

#[local] Abbreviation step := (step TrimSpace can_create numLetters parallel wordsFile).
#[local] Abbreviation runs := (runs TrimSpace can_create numLetters parallel wordsFile).

Lemma dead_no_step st ev st' : pc st = PcDead → ¬ step st ev st'.
Proof.
  intros Hd Hs. destruct Hs;
    repeat match goal with H : alive _ |- _ => destruct H end; congruence.
Qed.

Lemma step_before_matching fs st ev st' :
  before_matching fs st → step st ev st' →
  before_matching fs st' ∧ ¬ matching ev ∧ (pc st' = PcDead → ev = EvFatal).
Proof.
  intros (Hpc & Hw & Hd) Hs.
  pose proof (genAllWords_unreadable TrimSpace numLetters _ Hunreadable) as Hf.
  destruct Hs; unfold before_matching; cbn in *;
    try (rewrite Hw in *; done);
    try (destruct Hpc as [?|[?|[?|[?|?]]]]; congruence);
    try (split_and!; [tauto|done|done|tauto|done]);
    match goal with H : alive _ |- _ => destruct H as [_ Hnd] end;
    (split_and!; [done|done|done|tauto|by intros ?]).
Qed.

Lemma runs_before_matching fs st tr st' :
  runs st tr st' → before_matching fs st →
  before_matching fs st' ∧ Forall (λ ev, ¬ matching ev) tr
  ∧ (pc st' = PcDead → pc st = PcDead ∨ last tr = Some EvFatal).
Proof.
  induction 1 as [st|st ev st1 tr st' Hstep Hruns IH]; intros Hinv.
  - split_and!; [done|constructor|by left].
  - destruct (step_before_matching fs _ _ _ Hinv Hstep) as (Hinv1 & Hev & Hd).
    destruct (IH Hinv1) as (Hinv' & Htr & Hd').
    split_and!; [done|by constructor|].
    intros [Hd1|Hlast]%Hd'; right.
    + destruct Hruns as [|? ? ? ? ? Hs _].
      * by rewrite (Hd Hd1).
      * by destruct (dead_no_step _ _ _ Hd1 Hs).
    + destruct tr; [done|]. done.
Qed.

(** [main] is never blocked before it has called [genAllWords]: it goes on
    to the fatal error. *)
Lemma reaches_fatal fs st :
  before_matching fs st → ∃ tr st', runs st tr st' ∧ pc st' = PcDead.
Proof.
  pose proof (genAllWords_unreadable TrimSpace numLetters _ Hunreadable) as Hf.
  intros ([H|[H|[H|[H|H]]]] & _).
  - eexists _, _. split; [|shelve].
    eapply runs_cons; [by apply step_go_genAllStrings|].
    eapply runs_cons; [by apply step_go_rotate|].
    eapply runs_cons; [by apply step_go_writePuzzles|].
    eapply runs_cons; [by apply step_genAllWords_fatal|]. apply runs_nil.
    Unshelve. done.
  - eexists _, _. split; [|shelve].
    eapply runs_cons; [by apply step_go_rotate|].
    eapply runs_cons; [by apply step_go_writePuzzles|].
    eapply runs_cons; [by apply step_genAllWords_fatal|]. apply runs_nil.
    Unshelve. done.
  - eexists _, _. split; [|shelve].
    eapply runs_cons; [by apply step_go_writePuzzles|].
    eapply runs_cons; [by apply step_genAllWords_fatal|]. apply runs_nil.
    Unshelve. done.
  - eexists _, _. split; [|shelve].
    eapply runs_cons; [by apply step_genAllWords_fatal|]. apply runs_nil.
    Unshelve. done.
  - exists [], st. split; [apply runs_nil|done].
Qed.

End Unreadable.

(** The first combination is made of the first letters. *)
Lemma combs_first l k :
  (k ≤ length l)%nat → combs l k !! 0%nat = Some (take k l).
Proof.
  revert k. induction l as [|c l IH]; intros [|k] Hk; simpl in *;
    try done; try lia.
  rewrite lookup_app_l.
  - by rewrite list_lookup_fmap, IH by lia.
  - rewrite length_map, length_combs.
    clear IH. revert k Hk. induction (length l) as [|n IHn]; intros [|k] Hk;
      simpl; try lia. specialize (IHn k ltac:(lia)). lia.
Qed.

Example first_combination :
  ∃ out, genAllStrings 7 7 = Done out ∧ out !! 0%nat = Some (str "abcdefg").
Proof.
  eexists. split.
  - apply genAllStrings_level; [unfold int_max; lia|simpl; lia].
  - rewrite gen_level_combs by apply alphabet_sorted.
    change (S (Z.to_nat 7 - 1)) with 7%nat.
    by rewrite combs_first by (rewrite alphabet_length; lia).
Qed.

Example fatal_run :
  runs TrimSpace_ascii (λ _, true) 7 100 None (start ∅) fatal_trace
    fatal_state.
Proof.
  destruct first_combination as (out & Hout & H0).
  unfold fatal_trace.
  eapply runs_cons; [by apply step_go_genAllStrings|].
  eapply runs_cons; [by apply step_go_rotate|].
  eapply runs_cons.
  { eapply (step_combination _ _ _ _ _ _ 0 7 out (str "abcdefg")).
    - split; discriminate.
    - reflexivity.
    - exact Hout.
    - exact H0.
    - reflexivity. }
  eapply runs_cons; [by apply step_go_writePuzzles|].
  eapply runs_cons; [by apply step_genAllWords_fatal|].
  apply runs_nil.
Qed.

(** C9, as stated, fails: with the default flags and no words file, there
    is a run in which a combination has gone from the generator to the
    rotation stage when the fatal error ends the process. *)
Lemma pipeline_work_before_fatal :
  ¬ fatal_before_pipeline_work TrimSpace_ascii (λ _, true) 7 100 None ∅.
Proof.
  intros H. specialize (H fatal_trace fatal_state fatal_run eq_refl).
  unfold fatal_trace in H.
  apply Forall_cons in H as [_ H]. apply Forall_cons in H as [_ H].
  apply Forall_cons in H as [H _]. by apply H.
Qed.

(** C9, amended: when the words file cannot be opened or read, in every run
    of the program no matcher is started, no variant is matched and no
    puzzle is written; no worker exists and the files are those of the
    start; main does not return; the run can always go on to the fatal
    error of genAllWords, which is the last event of a process that has
    ended, after which nothing happens.  (The generator, the rotation stage
    and the writer are started before, and combinations may have gone from
    the generator to the rotation stage.) *)
Theorem unreadable_words_file_fatal
    (TrimSpace : list ascii → list ascii) (can_create : list ascii → bool)
    (numLetters parallel : Z) (wordsFile : option file) (fs : files)
    (tr : list event) (st : prog) :
  unreadable wordsFile →
  runs TrimSpace can_create numLetters parallel wordsFile (start fs) tr st →
  Forall (λ ev, ¬ matching ev) tr
  ∧ workers st = [] ∧ disk st = fs
  ∧ pc st ≠ PcReturned
  ∧ (pc st = PcDead →
       last tr = Some EvFatal
       ∧ ∀ ev st',
           ¬ step TrimSpace can_create numLetters parallel wordsFile st ev st')
  ∧ (∃ tr' st',
       runs TrimSpace can_create numLetters parallel wordsFile st tr' st'
       ∧ pc st' = PcDead).
Proof.
  intros Hun Hruns.
  assert (before_matching fs (start fs)) as Hstart.
  { split; [by left|done]. }
  destruct (runs_before_matching _ _ _ _ _ Hun fs _ _ _ Hruns Hstart)
    as (Hinv & Htr & Hdead).
  pose proof Hinv as (Hpc & Hw & Hd).
  split_and!; [done|done|done| | |].
  - intros Hr. destruct Hpc as [?|[?|[?|[?|?]]]]; congruence.
  - intros Hpd. split.
    + by destruct (Hdead Hpd).
    + intros ev st'. by apply dead_no_step.
  - by eapply reaches_fatal.
Qed.

Lemma unreadable_words_file_fatal_witness :
  Forall (λ ev, ¬ matching ev) fatal_trace
  ∧ workers fatal_state = [] ∧ disk fatal_state = ∅
  ∧ pc fatal_state ≠ PcReturned
  ∧ (pc fatal_state = PcDead →
       last fatal_trace = Some EvFatal
       ∧ ∀ ev st',
           ¬ step TrimSpace_ascii (λ _, true) 7 100 None fatal_state ev st')
  ∧ (∃ tr' st',
       runs TrimSpace_ascii (λ _, true) 7 100 None fatal_state tr' st'
       ∧ pc st' = PcDead).
Proof.
  apply (unreadable_words_file_fatal TrimSpace_ascii (λ _, true) 7 100 None ∅
           fatal_trace fatal_state).
  - exact I.
  - exact fatal_run.
Defined.

(** ** The stages together *)

Lemma rotation_elem (s v : list ascii) b : v ∈ rotations s → b ∈ v → b ∈ s.
Proof.
  rewrite rotations_seq. intros (j & -> & _)%list_elem_of_fmap.
  intros [Hb|Hb]%elem_of_app.
  - by eapply subseteq_drop.
  - by eapply subseteq_take.
Qed.

(** With fuel for its recursion, the generator sends the combinations of
    [n] letters of the alphabet. *)
Lemma genAllStrings_combs fuel (n : Z) out :
  (1 ≤ n ≤ int_max)%Z → (Z.to_nat n ≤ fuel)%nat →
  genAllStrings fuel n = Done out → out = combs alphabet (Z.to_nat n).
Proof.
  intros Hn Hf Hout.
  rewrite genAllStrings_level in Hout by done.
  rewrite gen_level_combs in Hout by apply alphabet_sorted.
  replace (S (Z.to_nat n - 1)) with (Z.to_nat n) in Hout by lia.
  congruence.
Qed.

Lemma rotate_elem (out : list (list ascii)) v :
  v ∈ rotate out → ∃ s, s ∈ out ∧ v ∈ rotations s.
Proof.
  unfold rotate. rewrite list_elem_of_In, in_flat_map.
  intros (s & Hs & Hv). exists s. by rewrite !list_elem_of_In.
Qed.

(** The variants that reach the matchers are non-empty strings of ASCII
    letters: for them the claims about the matcher hold. *)
Lemma pipeline_variants fuel (n : Z) out v :
  (1 ≤ n ≤ int_max)%Z → (Z.to_nat n ≤ fuel)%nat →
  genAllStrings fuel n = Done out → v ∈ rotate out →
  ascii_only v ∧ v ≠ [] ∧ length v = Z.to_nat n.
Proof.
  intros Hn Hf Hout Hv.
  destruct (rotate_elem _ _ Hv) as (s & Hs & Hv').
  rewrite (genAllStrings_combs fuel n out Hn Hf Hout) in Hs.
  apply combs_sublist in Hs as [Hs Hl].
  pose proof (rotation_length _ _ Hv') as Hlen.
  split_and!.
  - pose proof alphabet_ascii as Ha. unfold ascii_only in *.
    rewrite Forall_forall in Ha |- *. intros b Hb. apply Ha.
    eapply elem_of_sublist; [|exact Hs].
    by eapply rotation_elem.
  - intros Hnil. rewrite Hnil in Hlen. cbn [length] in Hlen. lia.
  - congruence.
Qed.

(** On a words file whose lines all end with a newline, the loader keeps
    the trimmed lines that pass its three tests, in the order of the file:
    at least 5 bytes, only lowercase letters a-z, at most [n] distinct
    letters. *)
Lemma genAllWords_terminated_lines
    (TrimSpace : list ascii → list ascii) (n : Z) (ls : list (list ascii)) :
  Forall (λ l, newline ∉ l) ls →
  genAllWords TrimSpace n (Some (mkFile (unlines ls) EOF))
  = Done (kept TrimSpace n ls)
  ∧ ∀ w, w ∈ kept TrimSpace n ls
         ↔ w ∈ map (λ l, TrimSpace (l ++ [newline])) ls
           ∧ (5 ≤ length w)%nat
           ∧ Forall (λ b, is_lower b = true) w
           ∧ (Z.of_nat (distinct w) ≤ n)%Z.
Proof.
  intros Hls. split.
  - unfold genAllWords. cbn [data].
    rewrite <- (app_nil_r (unlines ls)).
    rewrite read_loop_lines; [done|done|by intros ?%elem_of_nil|].
    rewrite app_nil_r. lia.
  - intros w. unfold kept.
    rewrite list_elem_of_In, filter_In, <- list_elem_of_In, keeps_spec. done.
Qed.

(** C5, where the loader departs from it: a words file that holds the five
    bytes "hello" and no newline.  The word has 5 letters, all lowercase,
    4 of them distinct, and passes the three tests of the loader for 7
    letters, and trimming leaves it as it is; but ReadBytes returns it
    together with io.EOF, the loop leaves on the error before it looks at
    the bytes, and the loader returns no word. *)
Theorem genAllWords_loses_unterminated_word
    (TrimSpace : list ascii → list ascii) :
  genAllWords TrimSpace 7 (Some (mkFile (str "hello") EOF)) = Done []
  ∧ ReadBytes newline (mkFile (str "hello") EOF)
    = (str "hello", Some EOF, mkFile [] EOF)
  ∧ TrimSpace_ascii (str "hello") = str "hello"
  ∧ keeps 7 (str "hello") = true
  ∧ (5 ≤ length (str "hello"))%nat
  ∧ Forall (λ b, is_lower b = true) (str "hello")
  ∧ (Z.of_nat (distinct (str "hello")) ≤ 7)%Z.
Proof.
  split_and!; try by vm_compute.
  repeat constructor.
Qed.

(** With the newline the word is kept. *)
Example genAllWords_terminated_word :
  genAllWords TrimSpace_ascii 7 (Some (mkFile (str "hello" ++ [newline]) EOF))
  = Done [str "hello"].
Proof. by vm_compute. Qed.

(* ===================================================================== *)
(** * Further properties of the code *)
(* ===================================================================== *)

(** ** The generator: which strings, and when it returns *)

Section GeneratorMore.

Lemma letter_lt_trans a b c : letter_lt a b → letter_lt b c → letter_lt a c.
Proof. unfold letter_lt. lia. Qed.

Lemma letter_lt_irrefl a : ¬ letter_lt a a.
Proof. unfold letter_lt. lia. Qed.

(** A sublist is one of the combinations. *)
Lemma elem_of_combs l s : s `sublist_of` l → s ∈ combs l (length s).
Proof.
  induction 1 as [|x s l Hs IH|x s l Hs IH].
  - simpl. left.
  - cbn [combs length]. apply elem_of_app. left.
    by apply list_elem_of_fmap_2.
  - destruct s as [|y s].
    + destruct l; simpl; left.
    + cbn [combs length] in *. apply elem_of_app. by right.
Qed.

(** Among strictly sorted lists, inclusion is being a sublist. *)
Lemma sorted_subseteq_sublist s l :
  StronglySorted letter_lt s → StronglySorted letter_lt l →
  s ⊆ l → s `sublist_of` l.
Proof.
  intros Hs Hl. revert s Hs.
  induction Hl as [|c l Hl IH Hc]; intros s Hs Hsub.
  - destruct s as [|x s]; [done|].
    specialize (Hsub x ltac:(left)). by apply elem_of_nil in Hsub.
  - destruct s as [|x s]; [apply sublist_nil_l|].
    pose proof Hs as Hxs.
    apply StronglySorted_cons in Hs as [Hx Hs].
    rewrite Forall_forall in Hx, Hc.
    destruct (decide (x = c)) as [->|Hne].
    + apply sublist_skip, IH; [done|]. intros y Hy.
      specialize (Hsub y ltac:(by right)).
      apply elem_of_cons in Hsub as [Heq|?]; [|done]. subst y.
      by destruct (letter_lt_irrefl c (Hx c Hy)).
    + assert (letter_lt c x) as Hcx.
      { specialize (Hsub x ltac:(left)).
        apply elem_of_cons in Hsub as [?|?]; [done|by apply Hc]. }
      apply sublist_cons, IH; [done|].
      intros y Hy. specialize (Hsub y Hy).
      apply elem_of_cons in Hsub as [Heq|?]; [|done]. exfalso. subst y.
      apply elem_of_cons in Hy as [Heq|Hy].
      * by apply Hne.
      * apply (letter_lt_irrefl c). eapply letter_lt_trans; [done|by apply Hx].
Qed.

Lemma combs_elem_iff l k s :
  StronglySorted letter_lt l →
  s ∈ combs l k ↔ length s = k ∧ StronglySorted letter_lt s ∧ s ⊆ l.
Proof.
  intros Hl. split.
  - intros [Hs Hlen]%combs_sublist. split_and!; [done| |].
    + by eapply sublist_StronglySorted.
    + intros x Hx. by eapply elem_of_sublist.
  - intros (<- & Hs & Hsub). by apply elem_of_combs, sorted_subseteq_sublist.
Qed.

Lemma for_each_OutOfFuel {A B} (body : A → result (list B)) a l :
  body a = OutOfFuel → for_each body (a :: l) = OutOfFuel.
Proof. intros H. cbn [for_each]. by rewrite H. Qed.

End GeneratorMore.

(** X1: with fuel for its recursion, the strings that genAllStrings sends
    for n >= 1 are exactly the strings of n letters of the alphabet in
    strictly increasing order: none is missing. *)
Theorem genAllStrings_elem (fuel : nat) (n : Z) (out : list (list ascii))
    (s : list ascii) :
  (1 ≤ n ≤ int_max)%Z → (Z.to_nat n ≤ fuel)%nat →
  genAllStrings fuel n = Done out →
  s ∈ out
  ↔ length s = Z.to_nat n ∧ StronglySorted letter_lt s ∧ s ⊆ alphabet.
Proof.
  intros Hn Hf Hout.
  rewrite (genAllStrings_combs fuel n out Hn Hf Hout).
  apply combs_elem_iff, alphabet_sorted.
Qed.

Lemma genAllStrings_elem_witness :
  ∃ out, genAllStrings 2 2 = Done out
    ∧ (str "bz" ∈ out
       ↔ length (str "bz") = Z.to_nat 2
         ∧ StronglySorted letter_lt (str "bz") ∧ str "bz" ⊆ alphabet).
Proof.
  eexists. split; [by vm_compute|].
  apply (genAllStrings_elem 2 2); [unfold int_max; lia|simpl; lia|].
  by vm_compute.
Defined.

(** X2: for n <= 0 genAllStrings does not return: it calls itself with
    n - 1, n - 2, ... and never reaches n == 1; no fuel is enough as long as
    the subtraction does not wrap around. *)
Theorem genAllStrings_nonpositive (fuel : nat) (n : Z) :
  (n ≤ 0)%Z → (int_min + Z.of_nat fuel ≤ n)%Z →
  genAllStrings fuel n = OutOfFuel.
Proof.
  revert n. induction fuel as [|fuel IH]; intros n Hn Hmin; [done|].
  cbn [genAllStrings].
  destruct (runes alphabet) as [|c cs] eqn:Hr; [by vm_compute in Hr|].
  apply for_each_OutOfFuel.
  destruct (Z.eqb_spec n 1) as [->|_]; [lia|].
  assert (int_sub n 1 = (n - 1)%Z) as ->.
  { unfold int_sub, int_wrap. unfold int_min in Hmin.
    rewrite Z.mod_small; lia. }
  rewrite IH by lia. done.
Qed.

Lemma genAllStrings_nonpositive_witness : genAllStrings 1000 0 = OutOfFuel.
Proof.
  apply (genAllStrings_nonpositive 1000 0); [lia|unfold int_min; lia].
Defined.

(** ** Rotations: the same letters, and no string twice *)

Section RotationMore.

Lemma rotation_Permutation (s v : list ascii) : v ∈ rotations s → v ≡ₚ s.
Proof.
  rewrite rotations_seq. intros (j & -> & _)%list_elem_of_fmap.
  by rewrite Permutation_app_comm, take_drop.
Qed.

Lemma rotation_head (s : list ascii) j :
  (j < length s)%nat → (drop j s ++ take j s) !! 0%nat = s !! j.
Proof.
  intros Hj. destruct (lookup_lt_is_Some_2 s j Hj) as [x Hx].
  by rewrite (drop_S _ _ _ Hx), Hx.
Qed.

Lemma NoDup_rotations (s : list ascii) : NoDup s → NoDup (rotations s).
Proof.
  intros Hs. rewrite rotations_seq.
  apply NoDup_fmap_2_strong; [|apply NoDup_seq].
  intros i j [_ Hi]%elem_of_seq [_ Hj]%elem_of_seq Heq. simpl in Hi, Hj.
  assert (s !! i = s !! j) as Hij.
  { rewrite <- (rotation_head s i), <- (rotation_head s j) by done.
    by rewrite Heq. }
  destruct (lookup_lt_is_Some_2 s i Hi) as [x Hx].
  eapply NoDup_lookup; [exact Hs|exact Hx|]. by rewrite <- Hij.
Qed.

#[local] Instance letter_lt_antisymm : AntiSymm (=) letter_lt.
Proof. intros a b. unfold letter_lt. lia. Qed.

Lemma NoDup_flat_map {A B} (f : A → list B) l :
  (∀ x1 x2 y, x1 ∈ l → x2 ∈ l → y ∈ f x1 → y ∈ f x2 → x1 = x2) →
  (∀ x, x ∈ l → NoDup (f x)) → NoDup l → NoDup (flat_map f l).
Proof.
  intros Hinj Hf. induction 1 as [|x l Hx Hl IH]; simpl; [constructor|].
  apply NoDup_app. split_and!.
  - apply Hf. left.
  - intros y Hy (x' & Hx' & Hy')%list_elem_of_In%in_flat_map.
    apply list_elem_of_In in Hx', Hy'.
    assert (x = x') as <-; [|done].
    apply (Hinj x x' y); [left|by right|done|done].
  - apply IH.
    + intros x1 x2 y H1 H2. apply Hinj; by right.
    + intros x' H'. apply Hf. by right.
Qed.

Lemma StronglySorted_NoDup_lt (s : list ascii) :
  StronglySorted letter_lt s → NoDup s.
Proof.
  induction 1 as [|x s Hs IH Hx]; constructor; [|done].
  intros Hin. rewrite Forall_forall in Hx.
  by apply (letter_lt_irrefl x), Hx.
Qed.

(** The rotations of different strictly sorted strings are different. *)
Lemma NoDup_rotate (out : list (list ascii)) :
  NoDup out → Forall (StronglySorted letter_lt) out → NoDup (rotate out).
Proof.
  intros Hnd Hsorted. rewrite Forall_forall in Hsorted.
  apply NoDup_flat_map; [| |done].
  - intros s1 s2 v H1 H2 Hv1%rotation_Permutation Hv2%rotation_Permutation.
    apply (StronglySorted_unique letter_lt); [by apply Hsorted..|].
    by rewrite <- Hv1, Hv2.
  - intros s Hs. apply NoDup_rotations.
    by apply StronglySorted_NoDup_lt, Hsorted.
Qed.

End RotationMore.

(** X3: every rotation of a string has the letters of the string, every
    letter of the string is the first letter of one of the rotations, and
    when the letters are distinct so are the rotations. *)
Theorem rotations_distinct (s : list ascii) :
  NoDup s →
  NoDup (rotations s)
  ∧ (∀ v, v ∈ rotations s → v ≡ₚ s)
  ∧ (∀ c, c ∈ s → ∃ v, v ∈ rotations s ∧ v !! 0%nat = Some c).
Proof.
  intros Hs. split_and!.
  - by apply NoDup_rotations.
  - apply rotation_Permutation.
  - intros c [j Hj]%list_elem_of_lookup.
    pose proof (lookup_lt_Some _ _ _ Hj) as Hlt.
    exists (drop j s ++ take j s). split.
    + eapply list_elem_of_lookup_2. by apply rotations_lookup.
    + by rewrite rotation_head.
Qed.

Lemma rotations_distinct_witness :
  NoDup (rotations (str "abc"))
  ∧ (∀ v, v ∈ rotations (str "abc") → v ≡ₚ str "abc")
  ∧ (∀ c, c ∈ str "abc" →
       ∃ v, v ∈ rotations (str "abc") ∧ v !! 0%nat = Some c).
Proof.
  apply (rotations_distinct (str "abc")).
  apply (bool_decide_unpack _). by vm_compute.
Defined.

(** X4: the variants that rotate sends for the combinations of genAllStrings
    are pairwise distinct, and there are n * C(26, n) of them: no letter
    string names two puzzles. *)
Theorem pipeline_variants_distinct (fuel : nat) (n : Z)
    (out : list (list ascii)) :
  (1 ≤ n ≤ int_max)%Z → (Z.to_nat n ≤ fuel)%nat →
  genAllStrings fuel n = Done out →
  NoDup (rotate out)
  ∧ length (rotate out) = (Z.to_nat n * binom 26 (Z.to_nat n))%nat.
Proof.
  intros Hn Hf Hout.
  pose proof (genAllStrings_combs fuel n out Hn Hf Hout) as Heq.
  assert (NoDup out) as Hnd.
  { rewrite Heq. apply NoDup_combs, alphabet_NoDup. }
  assert (Forall (λ s, StronglySorted letter_lt s
                       ∧ length s = Z.to_nat n) out) as Hall.
  { rewrite Heq. apply Forall_forall. intros s [Hs Hl]%combs_sublist.
    split; [|done]. eapply sublist_StronglySorted; [done|].
    apply alphabet_sorted. }
  assert (length out = binom 26 (Z.to_nat n)) as Hlen.
  { by rewrite Heq, length_combs, alphabet_length. }
  clear Heq Hout. split.
  - apply NoDup_rotate; [done|].
    eapply Forall_impl; [done|]. by intros s [? _].
  - rewrite (length_rotate (Z.to_nat n)), Hlen; [done|].
    eapply Forall_impl; [done|]. by intros s [_ ?].
Qed.

Lemma pipeline_variants_distinct_witness :
  ∃ out, genAllStrings 2 2 = Done out
    ∧ NoDup (rotate out)
    ∧ length (rotate out) = (Z.to_nat 2 * binom 26 (Z.to_nat 2))%nat.
Proof.
  eexists. split; [by vm_compute|].
  apply (pipeline_variants_distinct 2 2); [unfold int_max; lia|simpl; lia|].
  by vm_compute.
Defined.

(** ** The tests of the loader on arbitrary bytes *)

Section LoaderMore.

Lemma runes_nil_iff s : runes s = [] ↔ s = [].
Proof.
  split; [|by intros ->]. destruct s as [|b t]; [done|].
  by rewrite runes_unfold by done.
Qed.

Lemma size_list_to_set_remove_dups (l : list N) :
  size (list_to_set l : gset N) = length (remove_dups l).
Proof.
  replace (list_to_set l : gset N) with (list_to_set (remove_dups l) : gset N).
  - apply size_list_to_set, NoDup_remove_dups.
  - apply set_eq. intros r.
    by rewrite !elem_of_list_to_set, elem_of_remove_dups.
Qed.

End LoaderMore.

(** X5: containsOnly(w, alphabet) holds exactly when every byte of w is a
    lowercase letter a-z, for every byte string w: a byte that is not ASCII
    never decodes to a letter, whether the string is valid UTF-8 or not. *)
Theorem containsOnly_alphabet (w : list ascii) :
  containsOnly w alphabet = true ↔ Forall (λ b, is_lower b = true) w.
Proof.
  rewrite (containsOnly_ascii w alphabet alphabet_ascii).
  apply Forall_proper; [|done]. intros b. apply elem_of_alphabet.
Qed.

(** X6: containsOnly(s, target) holds exactly when every code point of s
    occurs in target; the empty string passes for every target, and only
    the empty string passes for the empty target. *)
Theorem containsOnly_code_points (s target : list ascii) :
  (containsOnly s target = true ↔ ∀ r, r ∈ runes s → r ∈ runes target)
  ∧ containsOnly [] target = true
  ∧ (containsOnly s [] = true ↔ s = []).
Proof.
  split_and!.
  - apply containsOnly_runes.
  - done.
  - rewrite containsOnly_runes. split; [|by intros ->].
    intros H. apply runes_nil_iff.
    destruct (runes s) as [|r l]; [done|].
    specialize (H r ltac:(left)). by apply elem_of_nil in H.
Qed.

(** X7: hasAtMostLetters(s, n) holds exactly when s is empty or has at most
    n distinct code points; so the empty string passes even for a negative
    n, and no other string passes for n < 1. *)
Theorem hasAtMostLetters_distinct (s : list ascii) (n : Z) :
  hasAtMostLetters s n = true
  ↔ s = [] ∨ (Z.of_nat (length (remove_dups (runes s))) ≤ n)%Z.
Proof.
  unfold hasAtMostLetters.
  rewrite hasAtMostLetters_loop_spec, union_empty_r_L.
  by rewrite size_list_to_set_remove_dups, runes_nil_iff.
Qed.

(** X8: every word that genAllWords returns, for any readable file, has at
    least 5 bytes, all of them lowercase letters a-z, and at most
    num_letters distinct letters; the words are trimmed lines of the file,
    in the order of the file. *)
Theorem genAllWords_sound (TrimSpace : list ascii → list ascii)
    (numLetters : Z) (f : file) (allWords : list (list ascii)) :
  genAllWords TrimSpace numLetters (Some f) = Done allWords →
  Forall (λ w, (5 ≤ length w)%nat
               ∧ Forall (λ b, is_lower b = true) w
               ∧ (Z.of_nat (distinct w) ≤ numLetters)%Z) allWords
  ∧ ∃ ls last,
      data f = unlines ls ++ last
      ∧ Forall (λ l, newline ∉ l) ls ∧ newline ∉ last
      ∧ allWords `sublist_of` map (λ l, TrimSpace (l ++ [newline])) ls.
Proof.
  destruct f as [text e]. unfold genAllWords. cbn [data].
  destruct (lines_decompose TrimSpace text) as (ls & last & -> & Hls & Hlast).
  rewrite read_loop_lines by (done || lia).
  destruct e; [|done]. intros [= <-]. split.
  - apply Forall_forall. intros w. unfold kept.
    rewrite list_elem_of_In, filter_In, keeps_spec. by intros [_ ?].
  - exists ls, last. split_and!; [done..|].
    unfold kept. generalize (map (λ l, TrimSpace (l ++ [newline])) ls).
    intros l. induction l as [|w l IH]; [done|]. simpl.
    destruct (keeps numLetters w); [by apply sublist_skip|by apply sublist_cons].
Qed.

Lemma genAllWords_sound_witness :
  let f := mkFile (unlines [str " pizza"; str "four"; str "puzzle"]) EOF in
  ∃ allWords, genAllWords TrimSpace_ascii 7 (Some f) = Done allWords
    ∧ Forall (λ w, (5 ≤ length w)%nat
                   ∧ Forall (λ b, is_lower b = true) w
                   ∧ (Z.of_nat (distinct w) ≤ 7)%Z) allWords.
Proof.
  intros f. eexists. split; [by vm_compute|].
  apply (genAllWords_sound TrimSpace_ascii 7 f). by vm_compute.
Defined.

(** X9: genAllWords ends the process with a fatal error exactly when the
    words file cannot be opened or reading it fails; in every other case its
    read loop terminates and it returns a dictionary. *)
Theorem genAllWords_fatal_iff (TrimSpace : list ascii → list ascii)
    (numLetters : Z) (f : option file) :
  (unreadable f ∧ genAllWords TrimSpace numLetters f = Fatal)
  ∨ (¬ unreadable f
     ∧ ∃ allWords, genAllWords TrimSpace numLetters f = Done allWords).
Proof.
  destruct f as [[text e]|]; [|by left].
  unfold genAllWords, unreadable. cbn [data ending].
  destruct (lines_decompose TrimSpace text) as (ls & last & -> & Hls & Hlast).
  rewrite read_loop_lines by (done || lia).
  destruct e; [right|by left]. split; [done|by eexists].
Qed.

(** ** The matcher: panics, puzzles and rotations *)

Section MatcherMore.

Lemma collect_loop_Done s c allWords words :
  s !! 0%nat = Some c → ∃ ws, collect_loop s allWords words = Done ws.
Proof.
  intros Hc. revert words.
  induction allWords as [|w allWords IH]; intros words; [by eexists|].
  cbn [collect_loop]. unfold index. rewrite Hc. cbn [mbind result_bind].
  destruct (negb _); [apply IH|]. destruct (containsOnly w s); apply IH.
Qed.

Lemma matchVariant_Done allWords s c :
  s !! 0%nat = Some c → ∃ r, matchVariant allWords s = Done r.
Proof.
  intros Hc. unfold matchVariant.
  destruct (collect_loop_Done s c allWords [] Hc) as [ws ->].
  cbn [mbind result_bind]. destruct (_ <? _)%nat; [by eexists|].
  destruct (score_loop _ _ _ _) as [b pts]. destruct (negb b); by eexists.
Qed.

Lemma matchVariant_nil allWords :
  matchVariant allWords []
  = match allWords with [] => Done None | _ :: _ => Panic end.
Proof. by destruct allWords. Qed.

Lemma matchWords_cons allWords s inp :
  matchWords allWords (s :: inp)
  = r ← matchVariant allWords s;
    outs ← matchWords allWords inp;
    Done (option_list r ++ outs).
Proof.
  unfold matchWords. cbn [for_each].
  by destruct (matchVariant allWords s).
Qed.

Lemma length_filter_split {A} (P : A → Prop) `{∀ x, Decision (P x)} l :
  (length (filter P l) + length (filter (λ x, ¬ P x) l) = length l)%nat.
Proof.
  induction l as [|a l IH]; [done|]. rewrite !filter_cons.
  destruct (decide (P a)).
  - rewrite decide_False by tauto. simpl. lia.
  - rewrite decide_True by done. simpl. lia.
Qed.

Lemma rotation_subseteq (s v : list ascii) :
  v ∈ rotations s → ∀ b, b ∈ v ↔ b ∈ s.
Proof. intros Hv%rotation_Permutation b. by rewrite Hv. Qed.

End MatcherMore.

(** X10: matchWords panics exactly when it receives an empty variant while
    the dictionary is not empty (the index s[0] is evaluated once per word);
    in every other case it returns. *)
Theorem matchWords_panic_iff (allWords inp : list (list ascii)) :
  (allWords ≠ [] ∧ [] ∈ inp ∧ matchWords allWords inp = Panic)
  ∨ (¬ (allWords ≠ [] ∧ [] ∈ inp)
     ∧ ∃ out, matchWords allWords inp = Done out).
Proof.
  induction inp as [|s inp IH].
  - right. split; [|by eexists]. by intros (_ & ?%elem_of_nil).
  - rewrite matchWords_cons. destruct s as [|c s].
    + rewrite matchVariant_nil. destruct allWords as [|w allWords].
      * right. split; [by intros [? _]|].
        destruct IH as [(? & _)|(_ & out & ->)]; [done|by eexists].
      * left. split_and!; [done|left|done].
    + destruct (matchVariant_Done allWords (c :: s) c eq_refl) as [r ->].
      cbn [mbind result_bind].
      destruct IH as [(Hne & Hin & ->)|(Hno & out & ->)].
      * left. split_and!; [done|by right|done].
      * right. split; [|by eexists]. intros [Hne Hin]. apply Hno.
        split; [done|]. by apply elem_of_cons in Hin as [?|?].
Qed.

(** X11: a puzzle sent for a variant s of ASCII letters has at least 10
    words, all of them words of the dictionary that qualify for s, at least
    one of them uses every letter of s, and its score lies between the
    number of its words plus 2 and three times that number. *)
Theorem puzzle_invariants (allWords : list (list ascii)) (s : list ascii)
    (p : puzzle) :
  ascii_only s →
  (3 * Z.of_nat (length allWords) ≤ int_max)%Z →
  matchVariant allWords s = Done (Some p) →
  letters p = s
  ∧ (10 ≤ length (words p))%nat
  ∧ Forall (λ w, w ∈ allWords ∧ qualifies s w) (words p)
  ∧ Exists (pangram s) (words p)
  ∧ (Z.of_nat (length (words p)) + 2 ≤ maxPts p
     ≤ 3 * Z.of_nat (length (words p)))%Z.
Proof.
  intros Hs Hmax Hp.
  destruct (matchVariant_emitted _ _ _ Hp) as [c Hc].
  rewrite (matchVariant_unfold allWords s c) in Hp by done. cbv zeta in Hp.
  set (qs := filter (qualifies s) allWords) in *.
  assert (length qs ≤ length allWords)%nat as Hlen by apply length_filter.
  rewrite score_loop_spec in Hp by (done || lia). cbn [fst snd orb] in Hp.
  destruct (Nat.ltb_spec (length qs) 10) as [|Hten]; [done|].
  case_bool_decide as Hpan; [|done]. cbn [negb] in Hp.
  injection Hp as <-. cbn [letters words maxPts].
  split_and!; [done|done| |done| |].
  - apply Forall_forall. intros w Hw. by apply list_elem_of_filter in Hw as [? ?].
  - assert (1 ≤ length (filter (pangram s) qs))%nat.
    { apply Exists_exists in Hpan as (w & Hw & Hpw).
      assert (w ∈ filter (pangram s) qs) as Hin
        by (by apply list_elem_of_filter).
      destruct (filter (pangram s) qs); [by apply elem_of_nil in Hin|simpl; lia]. }
    pose proof (length_filter_split (pangram s) qs). lia.
  - pose proof (length_filter_split (pangram s) qs). lia.
Qed.

Lemma puzzle_invariants_witness :
  letters puzzle_ab = str "ab"
  ∧ (10 ≤ length (words puzzle_ab))%nat
  ∧ Forall (λ w, w ∈ dict_ab ∧ qualifies (str "ab") w) (words puzzle_ab)
  ∧ Exists (pangram (str "ab")) (words puzzle_ab)
  ∧ (Z.of_nat (length (words puzzle_ab)) + 2 ≤ maxPts puzzle_ab
     ≤ 3 * Z.of_nat (length (words puzzle_ab)))%Z.
Proof.
  apply (puzzle_invariants dict_ab (str "ab") puzzle_ab).
  - repeat constructor; by vm_compute.
  - by vm_compute.
  - by vm_compute.
Defined.

(** X12: matchWords running alone sends at most one puzzle per variant, in
    the order of the variants: the letter strings of the puzzles it sends
    form a sublist of its input, and each puzzle is the one of its
    variant. *)
Theorem matchWords_in_order (allWords inp : list (list ascii))
    (out : list puzzle) :
  matchWords allWords inp = Done out →
  letters <$> out `sublist_of` inp
  ∧ Forall (λ p, matchVariant allWords (letters p) = Done (Some p)) out.
Proof.
  revert out. induction inp as [|s inp IH]; intros out.
  - intros [= <-]. split; [done|constructor].
  - rewrite matchWords_cons.
    destruct (matchVariant allWords s) as [r| | |] eqn:Hs; try done.
    cbn [mbind result_bind].
    destruct (matchWords allWords inp) as [outs| | |]; try done.
    cbn [mbind result_bind]. intros [= <-].
    destruct (IH outs eq_refl) as [Hsub Hall].
    destruct r as [p|]; cbn [option_list app].
    + assert (letters p = s) as Hp.
      { destruct (matchVariant_emitted _ _ _ Hs) as [c Hc].
        unfold matchVariant in Hs.
        destruct (collect_loop_Done s c allWords [] Hc) as [ws Hws].
        rewrite Hws in Hs. cbn [mbind result_bind] in Hs.
        destruct (_ <? _)%nat; [done|].
        destruct (score_loop _ _ _ _) as [b pts].
        destruct (negb b); [done|]. by injection Hs as <-. }
      split.
      * subst s. by apply sublist_skip.
      * constructor; [by subst s|done].
    + split; [by apply sublist_cons|done].
Qed.

Lemma matchWords_in_order_witness :
  letters <$> [puzzle_ab; puzzle_ba] `sublist_of` [str "ab"; str "zz"; str "ba"]
  ∧ Forall (λ p, matchVariant dict_ab (letters p) = Done (Some p))
      [puzzle_ab; puzzle_ba].
Proof.
  apply (matchWords_in_order dict_ab [str "ab"; str "zz"; str "ba"]).
  by vm_compute.
Defined.

(** X13: the rotations of a string of ASCII letters have the same letter
    set: the test that a word has only letters of the variant and the test
    that a word uses every letter of the variant give the same answer for
    all the rotations; only the mandatory first letter tells their puzzles
    apart. *)
Theorem rotation_same_tests (s v w : list ascii) :
  ascii_only s → v ∈ rotations s →
  containsOnly w v = containsOnly w s
  ∧ containsAll_loop w (runes v) true = containsAll_loop w (runes s) true.
Proof.
  intros Hs Hv.
  pose proof (rotation_subseteq s v Hv) as Hsame.
  assert (ascii_only v) as Hva.
  { unfold ascii_only in *. rewrite Forall_forall in Hs |- *.
    intros b Hb. by apply Hs, Hsame. }
  split.
  - apply eq_true_iff_eq.
    rewrite !containsOnly_ascii by done.
    apply Forall_proper; [|done]. intros b. apply Hsame.
  - apply eq_true_iff_eq.
    rewrite !containsAll_pangram by done. unfold pangram.
    rewrite !Forall_forall. split; intros H b Hb; by apply H, Hsame.
Qed.

Lemma rotation_same_tests_witness :
  containsOnly (str "babab") (str "ba") = containsOnly (str "babab") (str "ab")
  ∧ containsAll_loop (str "babab") (runes (str "ba")) true
    = containsAll_loop (str "babab") (runes (str "ab")) true.
Proof.
  apply (rotation_same_tests (str "ab") (str "ba") (str "babab")).
  - repeat constructor; by vm_compute.
  - apply (bool_decide_unpack _). by vm_compute.
Defined.

(** ** The writer: failure, and the order of the puzzles *)

Lemma create_cases (can_create : list ascii → bool) (ps : list puzzle) :
  (∃ p, p ∈ ps ∧ can_create (puzzle_file p) = false)
  ∨ (∀ p, p ∈ ps → can_create (puzzle_file p) = true).
Proof.
  induction ps as [|p ps [(q & Hq & Hc)|IH]].
  - right. by intros p ?%elem_of_nil.
  - left. exists q. split; [by right|done].
  - destruct (can_create (puzzle_file p)) eqn:Hp.
    + right. intros q [->|Hq]%elem_of_cons; [done|by apply IH].
    + left. exists p. split; [left|done].
Qed.

(** The writer ends the process at the first puzzle whose file cannot be
    created. *)
Lemma writePuzzles_Fatal (can_create : list ascii → bool)
    (ps : list puzzle) (p : puzzle) (fs : files) :
  p ∈ ps → can_create (puzzle_file p) = false →
  writePuzzles can_create ps fs = Fatal.
Proof.
  intros Hp Hc. revert fs. induction ps as [|q ps IH]; intros fs.
  { by apply elem_of_nil in Hp. }
  cbn [writePuzzles].
  destruct (can_create (puzzle_file q)) eqn:Hq.
  - destruct (writePuzzle_file can_create q fs Hq) as (fs1 & -> & _).
    cbn [mbind result_bind].
    apply elem_of_cons in Hp as [->|Hp]; [congruence|]. by apply IH.
  - by rewrite (writePuzzle_fatal can_create q fs Hq).
Qed.

(** X14: writePuzzles ends the process with a fatal error exactly when the
    file of one of the puzzles it receives cannot be created; otherwise it
    returns. *)
Theorem writePuzzles_fatal_iff (can_create : list ascii → bool)
    (ps : list puzzle) (fs : files) :
  ((∃ p, p ∈ ps ∧ can_create (puzzle_file p) = false)
   ∧ writePuzzles can_create ps fs = Fatal)
  ∨ ((∀ p, p ∈ ps → can_create (puzzle_file p) = true)
     ∧ ∃ fs', writePuzzles can_create ps fs = Done fs').
Proof.
  destruct (create_cases can_create ps) as [(q & Hq & Hc)|Hall].
  - left. split; [by exists q|]. by eapply writePuzzles_Fatal.
  - right. split; [done|].
    destruct (writePuzzles_Done can_create ps fs Hall) as (fs' & H' & _).
    by exists fs'.
Qed.

(** X15: the files do not depend on the order in which the puzzles reach
    the writer, when no two of them have the same letters: two arrival
    orders of the same puzzles leave the same files. *)
Theorem writePuzzles_order (can_create : list ascii → bool)
    (ps ps' : list puzzle) (fs : files) :
  ps ≡ₚ ps' → NoDup (letters <$> ps) →
  writePuzzles can_create ps fs = writePuzzles can_create ps' fs.
Proof.
  intros Hperm Hnd.
  assert (∀ qs, qs ≡ₚ ps → ∀ p q, p ∈ qs → q ∈ qs →
                letters q = letters p → q = p) as Huniq.
  { intros qs Hqs p q Hp Hq Heq. rewrite Hqs in Hp, Hq.
    apply list_elem_of_lookup in Hp as [i Hi], Hq as [j Hj].
    assert (i = j) as ->; [|congruence].
    apply (NoDup_lookup (letters <$> ps) i j (letters p) Hnd).
    - by rewrite list_lookup_fmap, Hi.
    - rewrite list_lookup_fmap, Hj. simpl. by rewrite Heq. }
  destruct (create_cases can_create ps) as [(q & Hq & Hc)|Hall].
  - rewrite (writePuzzles_Fatal can_create ps q fs Hq Hc).
    rewrite Hperm in Hq.
    by rewrite (writePuzzles_Fatal can_create ps' q fs Hq Hc).
  - assert (∀ p, p ∈ ps' → can_create (puzzle_file p) = true) as Hall'.
    { intros p Hp. apply Hall. by rewrite Hperm. }
    destruct (writePuzzles_Done can_create ps fs Hall) as (fs1 & H1 & Ho1).
    destruct (writePuzzles_Done can_create ps' fs Hall') as (fs2 & H2 & Ho2).
    rewrite H1, H2. f_equal. apply map_eq. intros path.
    assert ((∃ p, p ∈ ps ∧ path = puzzle_file p)
            ∨ ¬ (∃ p, p ∈ ps ∧ path = puzzle_file p))
      as [(p & Hp & ->)|Hno].
    { destruct (decide (path ∈ puzzle_file <$> ps)) as [Hin|Hin].
      - left. apply list_elem_of_fmap in Hin as (p & -> & Hp). by exists p.
      - right. intros (p & Hp & ->). apply Hin. by apply list_elem_of_fmap_2. }
    + assert (p ∈ ps') as Hp' by (by rewrite <- Hperm).
      rewrite (writePuzzles_final can_create ps p fs fs1 Hall H1 Hp
                 (λ q Hq, Huniq ps (reflexivity ps) p q Hp Hq)).
      by rewrite (writePuzzles_final can_create ps' p fs fs2 Hall' H2 Hp'
                    (λ q Hq, Huniq ps' (symmetry Hperm) p q Hp' Hq)).
    + rewrite Ho1, Ho2; [done| |].
      * intros p Hp ->. apply Hno. exists p. by rewrite Hperm.
      * intros p Hp ->. apply Hno. by exists p.
Qed.

Lemma writePuzzles_order_witness :
  writePuzzles (λ _, true) [puzzle_ab; puzzle_ba] ∅
  = writePuzzles (λ _, true) [puzzle_ba; puzzle_ab] ∅.
Proof.
  apply (writePuzzles_order (λ _, true) [puzzle_ab; puzzle_ba]).
  - apply perm_swap.
  - apply (bool_decide_unpack _). by vm_compute.
Defined.

(** ** [factorial] *)

Section Factorial.

Lemma factorial_loop_spec fuel (n res : positive) (h : heap) v r :
  n ≠ res → h !! n = Some v → h !! res = Some r →
  (Z.to_nat v < fuel)%nat →
  ∃ h', factorial_loop fuel n res h = Done h'
    ∧ h' !! n = Some (Z.min v 0)
    ∧ h' !! res = Some (r * Z.of_nat (fact (Z.to_nat v)))%Z
    ∧ ∀ p, p ≠ n → p ≠ res → h' !! p = h !! p.
Proof.
  intros Hne. revert h v r.
  induction fuel as [|fuel IH]; intros h v r Hn Hr Hf; [lia|].
  cbn [factorial_loop]. unfold load. rewrite Hn. cbn [mbind result_bind].
  destruct (Z.ltb_spec 0 v) as [Hpos|Hneg].
  - repeat (first [rewrite Hr|rewrite Hn|rewrite lookup_insert_ne by done];
            cbn [mbind result_bind]).
    destruct (IH (<[n:=(v - 1)%Z]> (<[res:=(r * v)%Z]> h)) (v - 1)%Z (r * v)%Z)
      as (h' & -> & Hn' & Hr' & Hother).
    + apply lookup_insert_eq.
    + rewrite lookup_insert_ne by done. apply lookup_insert_eq.
    + lia.
    + exists h'. split_and!; [done| | |].
      * rewrite Hn'. f_equal. lia.
      * rewrite Hr'. f_equal.
        replace (Z.to_nat v) with (S (Z.to_nat (v - 1))) by lia.
        set (k := Z.to_nat (v - 1)).
        change (fact (S k)) with (S k * fact k)%nat.
        rewrite Nat2Z.inj_mul. replace (Z.of_nat (S k)) with v by lia. ring.
      * intros p Hp1 Hp2. rewrite Hother by done.
        by rewrite !lookup_insert_ne.
  - exists h. split_and!; [done| | |done].
    + rewrite Hn. f_equal. lia.
    + rewrite Hr. f_equal. replace (Z.to_nat v) with 0%nat by lia.
      simpl. lia.
Qed.

End Factorial.

(** X16: factorial(n), for a valid pointer n to a value v, returns the
    pointer n itself and not the product: the caller's number has been
    counted down in place to 0 when v > 0 (it is left as it is when
    v <= 0), so the value returned is min(v, 0); the product v! has been
    computed into the new big.Int result, which is not returned; no other
    number of the heap changes. *)
Theorem factorial_returns_argument (fuel : nat) (n : positive) (h : heap)
    (v : Z) :
  h !! n = Some v → (Z.to_nat v < fuel)%nat →
  ∃ h', factorial fuel n h = Done (n, h')
    ∧ h' !! n = Some (Z.min v 0)
    ∧ h' !! fresh (dom h) = Some (Z.of_nat (fact (Z.to_nat v)))
    ∧ ∀ p, p ≠ n → p ≠ fresh (dom h) → h' !! p = h !! p.
Proof.
  intros Hn Hf. unfold factorial.
  assert (n ≠ fresh (dom h)) as Hne.
  { intros Heq. apply (is_fresh (dom h)). rewrite <- Heq.
    by apply elem_of_dom. }
  destruct (factorial_loop_spec fuel n (fresh (dom h))
              (<[fresh (dom h) := 1%Z]> h) v 1 Hne)
    as (h' & -> & Hn' & Hr' & Hother).
  - by rewrite lookup_insert_ne.
  - apply lookup_insert_eq.
  - done.
  - exists h'. split_and!; [done|done| |].
    + rewrite Hr'. f_equal. lia.
    + intros p Hp1 Hp2. rewrite Hother by done. by rewrite lookup_insert_ne.
Qed.

Lemma factorial_returns_argument_witness :
  ∃ h', factorial 6 1%positive {[ 1%positive := 5%Z ]} = Done (1%positive, h')
    ∧ h' !! 1%positive = Some (Z.min 5 0)
    ∧ h' !! fresh (dom ({[ 1%positive := 5%Z ]} : heap))
      = Some (Z.of_nat (fact (Z.to_nat 5)))
    ∧ ∀ p, p ≠ 1%positive →
           p ≠ fresh (dom ({[ 1%positive := 5%Z ]} : heap)) →
           h' !! p = ({[ 1%positive := 5%Z ]} : heap) !! p.
Proof.
  apply (factorial_returns_argument 6 1%positive {[ 1%positive := 5%Z ]} 5).
  - reflexivity.
  - simpl. lia.
Defined.

(** The caller's 5 has become 0, and 120 is left in the new number. *)
Example factorial_5 :
  match factorial 6 1%positive {[ 1%positive := 5%Z ]} with
  | Done (p, h) => Some (p, h !! 1%positive, h !! 2%positive)
  | _ => None
  end
  = Some (1%positive, Some 0%Z, Some 120%Z).
Proof. by vm_compute. Qed.

(** ** The whole program: what its runs do *)

Section Fuel.

Lemma for_each_Done_inv {A B} (body : A → result (list B)) l out :
  for_each body l = Done out → ∀ a, a ∈ l → ∃ o, body a = Done o.
Proof.
  revert out. induction l as [|a l IH]; intros out H b Hb.
  { by apply elem_of_nil in Hb. }
  cbn [for_each] in H. destruct (body a) as [o| | |] eqn:Ha; try done.
  cbn [mbind result_bind] in H.
  destruct (for_each body l) as [os| | |] eqn:Hl; try done.
  apply elem_of_cons in Hb as [->|Hb]; [by exists o|by eapply IH].
Qed.

Lemma for_each_ext {A B} (body body' : A → result (list B)) l :
  (∀ a, a ∈ l → body a = body' a) → for_each body l = for_each body' l.
Proof.
  induction l as [|a l IH]; intros H; [done|]. cbn [for_each].
  rewrite (H a) by left. rewrite IH; [done|]. intros; apply H; by right.
Qed.

(** More fuel does not change what the generator has sent. *)
Lemma genAllStrings_fuel_mono fuel fuel' (n : Z) out :
  (fuel ≤ fuel')%nat →
  genAllStrings fuel n = Done out → genAllStrings fuel' n = Done out.
Proof.
  revert fuel' n out. induction fuel as [|fuel IH]; intros fuel' n out Hf Hout;
    [done|].
  destruct fuel' as [|fuel']; [lia|]. cbn [genAllStrings] in *.
  rewrite <- Hout. symmetry. apply for_each_ext. intros c Hc.
  destruct (for_each_Done_inv _ _ _ Hout c Hc) as [o Ho]. cbv beta in Ho.
  destruct (n =? 1)%Z; [done|].
  destruct (genAllStrings fuel (int_sub n 1)) as [ch| | |] eqn:Hch; [|done..].
  by rewrite (IH fuel' _ ch ltac:(lia) Hch).
Qed.

Lemma genAllStrings_det fuel1 fuel2 (n : Z) out1 out2 :
  genAllStrings fuel1 n = Done out1 → genAllStrings fuel2 n = Done out2 →
  out1 = out2.
Proof.
  intros H1 H2.
  apply (genAllStrings_fuel_mono _ (fuel1 `max` fuel2)) in H1; [|lia].
  apply (genAllStrings_fuel_mono _ (fuel1 `max` fuel2)) in H2; [|lia].
  congruence.
Qed.

End Fuel.

Section Runs.

Variable TrimSpace : list ascii → list ascii.
Variable can_create : list ascii → bool.
Variables numLetters parallel : Z.
Variable wordsFile : option file.

#[local] Abbreviation step' :=
  (step TrimSpace can_create numLetters parallel wordsFile).
#[local] Abbreviation runs' :=
  (runs TrimSpace can_create numLetters parallel wordsFile).

Lemma runs_app st1 tr1 st2 tr2 st3 :
  runs' st1 tr1 st2 → runs' st2 tr2 st3 → runs' st1 (tr1 ++ tr2) st3.
Proof.
  induction 1 as [|st ev st' tr st'' Hs _ IH]; intros H2; [done|].
  cbn [app]. eapply runs_cons; [done|by apply IH].
Qed.

(** Induction on a run from its first state, one step after the other. *)
Lemma runs_ind_snoc (P : list event → prog → Prop) st0 :
  P [] st0 →
  (∀ tr st ev st', runs' st0 tr st → P tr st → step' st ev st' →
                   P (tr ++ [ev]) st') →
  ∀ tr st, runs' st0 tr st → P tr st.
Proof.
  intros H0 Hstep.
  assert (∀ st tr st', runs' st tr st' →
            ∀ pre, runs' st0 pre st → P pre st → P (pre ++ tr) st') as Hgen.
  { induction 1 as [st|st ev st1 tr st' Hs Hr IH]; intros pre Hpre HP.
    - by rewrite app_nil_r.
    - replace (pre ++ ev :: tr) with ((pre ++ [ev]) ++ tr)
        by (by rewrite <- app_assoc).
      apply IH.
      + eapply runs_app; [done|]. eapply runs_cons; [done|apply runs_nil].
      + by eapply Hstep. }
  intros tr st Hr. apply (Hgen st0 tr st Hr []); [apply runs_nil|done].
Qed.

End Runs.

Section Invariant.

Variable TrimSpace : list ascii → list ascii.
Variable can_create : list ascii → bool.
Variables numLetters parallel : Z.
Variable wordsFile : option file.
Variables out allWords : list (list ascii).
Variable fs : files.
Variable fuel0 : nat.

Hypothesis Hgen : genAllStrings fuel0 numLetters = Done out.
Hypothesis Hload : genAllWords TrimSpace numLetters wordsFile = Done allWords.
Hypothesis Hpar : (parallel ≤ int_max)%Z.

#[local] Abbreviation step' :=
  (step TrimSpace can_create numLetters parallel wordsFile).
#[local] Abbreviation runs' :=
  (runs TrimSpace can_create numLetters parallel wordsFile).
#[local] Abbreviation inv :=
  (program_inv can_create parallel out allWords fs).

Lemma variants_of_snoc tr ev :
  variants_of (tr ++ [ev])
  = variants_of tr ++ match ev with EvVariant _ v => [v] | _ => [] end.
Proof. unfold variants_of. rewrite omap_app. by destruct ev. Qed.

Lemma puzzles_written_snoc tr ev :
  puzzles_written (tr ++ [ev])
  = puzzles_written tr ++ match ev with EvPuzzle _ p => [p] | _ => [] end.
Proof. unfold puzzles_written. rewrite omap_app. by destruct ev. Qed.

Lemma rotate_app l1 l2 : rotate (l1 ++ l2) = rotate l1 ++ rotate l2.
Proof. unfold rotate. apply flat_map_app. Qed.

Lemma not_Exited_insert (ws : list worker) i w :
  w ≠ Exited → Exited ∈ <[i := w]> ws → Exited ∈ ws.
Proof.
  intros Hw [j Hj]%list_elem_of_lookup.
  destruct (decide (i = j)) as [->|Hne].
  - destruct (decide (j < length ws)%nat).
    + rewrite list_lookup_insert_eq in Hj by done. congruence.
    + rewrite list_insert_ge in Hj by lia. by eapply list_elem_of_lookup_2.
  - rewrite list_lookup_insert_ne in Hj by done.
    by eapply list_elem_of_lookup_2.
Qed.

Lemma Forall_Exited_lookup (ws : list worker) i w :
  Forall (λ w, w = Exited) ws → ws !! i = Some w → w = Exited.
Proof. intros H Hi. by eapply (Forall_lookup_1 _ _ _ _ H). Qed.

Ltac use_gen Hgen :=
  repeat match goal with
  | H : genAllStrings _ _ = Done ?o |- _ =>
      lazymatch o with
      | _ => first [ constr_eq H Hgen; fail 1
                   | pose proof (genAllStrings_det _ _ _ _ _ H Hgen); subst o;
                     clear H ]
      end
  end.

Ltac no_worker :=
  match goal with
  | H : [] !! _ = Some _ |- _ => by rewrite lookup_nil in H
  | H1 : Forall (λ w, w = Exited) ?ws, H2 : ?ws !! _ = Some Idle |- _ =>
      by pose proof (Forall_Exited_lookup _ _ _ H1 H2)
  | H1 : Forall (λ w, w = Exited) ?ws, H2 : ?ws !! _ = Some (Holding _) |- _ =>
      by pose proof (Forall_Exited_lookup _ _ _ H1 H2)
  end.

Lemma step_inv tr st ev st' :
  inv tr st → step' st ev st' → inv (tr ++ [ev]) st'.
Proof.
  intros [Hdead|(Hflow & Hmain & Hdisk & Hperm & Hex)] Hstep.
  { destruct Hstep;
      repeat match goal with H : alive _ |- _ => destruct H end; congruence. }
  unfold program_inv, flow_inv, main_inv, idle_inv, alive in *.
  rewrite variants_of_snoc, puzzles_written_snoc.
  destruct Hstep; destruct st as [pc0 gen0 rot0 dict0 ws cl wr dk];
    unfold alive in *;
    cbn [pc gen rot dict workers closed writer disk
         set_pc set_gen set_rot set_dict set_workers
         set_closed set_writer set_disk] in *;
    simplify_eq; try (left; reflexivity); right; rewrite ?app_nil_r;
    destruct_and?; simplify_eq; use_gen Hgen.
  all: try (split_and!; done).
  all: try (destruct pc0; destruct_and?; simplify_eq; try done; try no_worker).
  all: try (destruct gen0; destruct_and?; simplify_eq; try done).
  all: try (destruct rot0; destruct_and?; simplify_eq; try done).
  all: rewrite ?app_nil_r in *.
  all: split_and!; try done; try lia; try congruence.
  all: try (by intros ?%elem_of_nil).
  all: try (by rewrite length_insert).
  all: try (rewrite int_add_small by (unfold int_min; lia);
            rewrite ?length_app; simpl; lia).
  all: try (by (intros Hin; apply Hex in Hin)).
  all: try (by (intro Hin; apply not_Exited_insert in Hin;
                [by apply Hex in Hin|first [done|by destruct r]])).
  all: try (by (intros [Hin|Hin%list_elem_of_singleton]%elem_of_app;
                [by apply Hex in Hin|done])).
  all: try (by rewrite <- app_assoc).
  all: try (rewrite writePuzzles_app, Hdisk; cbn [mbind result_bind writePuzzles];
            match goal with H : writePuzzle _ _ _ = Done _ |- _ => by rewrite H end).
  all: try (rewrite flat_map_app; cbn [flat_map held]; by rewrite !app_nil_r).
  all: try (by eapply lookup_lt_Some).
  all: try (by (apply nil_length_inv; lia)).
  all: try match goal with
       | H : ?o !! ?k = Some ?s |- _ ++ rotations ?s = rotate (take (S ?k) ?o) =>
           rewrite (take_S_r _ _ _ H), rotate_app; unfold rotate at 2;
           cbn [flat_map]; rewrite app_nil_r; congruence
       | H : _ ++ ?p = rotate (take ?k ?o) |- _ ++ ?p = rotate ?o =>
           by rewrite take_ge in H by lia
       end.
  all: try match goal with
       | Hi : ?ws !! ?i = Some (Holding ?p)
         |- (_ ++ [?p]) ++ flat_map held (<[?i:=Idle]> ?ws) ≡ₚ _ =>
           pose proof (held_insert ws i (Holding p) Idle Hi) as Hh;
           cbn [held app] in Hh; rewrite <- app_assoc;
           change ([p] ++ ?l) with (p :: l); by rewrite Hh
       | Hi : ?ws !! ?i = Some Idle
         |- _ ++ flat_map held (<[?i:=Exited]> ?ws) ≡ₚ _ =>
           pose proof (held_insert ws i Idle Exited Hi) as Hh;
           cbn [held app] in Hh; by rewrite Hh
       | Hi : ?ws !! ?i = Some Idle, Hr : matchVariant _ ?v = Done ?r
         |- _ ++ flat_map held (<[?i:=after_match ?r]> ?ws) ≡ₚ _ =>
           pose proof (held_insert ws i Idle (after_match r) Hi) as Hh;
           cbn [held app] in Hh; rewrite Hh, flat_map_app;
           cbn [flat_map]; rewrite app_nil_r, (puzzles_of_Done _ v r Hr);
           rewrite <- Hperm, <- !app_assoc;
           apply Permutation_app_head, Permutation_app_comm
       end.
Qed.

Lemma start_inv : inv [] (start fs).
Proof.
  right. unfold flow_inv, main_inv, idle_inv. cbn. split_and!; try done.
  by intros ?%elem_of_nil.
Qed.

(** The invariant holds in every state of every run. *)
Lemma runs_inv tr st : runs' (start fs) tr st → inv tr st.
Proof.
  apply (runs_ind_snoc TrimSpace can_create numLetters parallel wordsFile
           (λ tr st, inv tr st)).
  - apply start_inv.
  - intros tr' st1 ev st2 _ Hinv Hstep. by eapply step_inv.
Qed.

Lemma elem_of_puzzles_of v p :
  p ∈ puzzles_of allWords v ↔ matchVariant allWords v = Done (Some p).
Proof.
  unfold puzzles_of.
  destruct (matchVariant allWords v) as [[q|]| | |]; split;
    try done; try (by intros ?%elem_of_nil).
  - by intros ->%list_elem_of_singleton.
  - intros [= ->]. left.
Qed.

Lemma matchVariant_letters v p :
  matchVariant allWords v = Done (Some p) → letters p = v.
Proof.
  intros Hp. destruct (matchVariant_emitted _ _ _ Hp) as [c Hc].
  unfold matchVariant in Hp.
  destruct (collect_loop_Done v c allWords [] Hc) as [ws Hws].
  rewrite Hws in Hp. cbn [mbind result_bind] in Hp.
  destruct (_ <? _)%nat; [done|]. destruct (score_loop _ _ _ _) as [b pts].
  destruct (negb b); [done|]. by injection Hp as <-.
Qed.

(** When [main] has returned, with at least one worker: every variant has
    been matched, and every puzzle written. *)
Lemma returned_inv tr st :
  (1 ≤ parallel)%Z → runs' (start fs) tr st → pc st = PcReturned →
  variants_of tr = rotate out
  ∧ puzzles_written tr ≡ₚ flat_map (puzzles_of allWords) (rotate out)
  ∧ writePuzzles can_create (puzzles_written tr) fs = Done (disk st).
Proof.
  intros Hp1 Hruns Hpc.
  destruct (runs_inv tr st Hruns) as [Hd|(Hflow & Hmain & Hdisk & Hperm & Hex)];
    [congruence|].
  unfold main_inv in Hmain. rewrite Hpc in Hmain.
  destruct Hmain as (Hg & Hr & Hw & Hcl & Hdict & Hall & Hlen).
  assert (rot st = RotClosed) as Hrot.
  { apply Hex. destruct (workers st) as [|w ws]; [simpl in Hlen; lia|].
    apply Forall_cons in Hall as [-> _]. left. }
  unfold flow_inv in Hflow. rewrite Hrot in Hflow.
  destruct (gen st); [done..|].
  rewrite (held_Exited _ Hall), app_nil_r, Hflow in Hperm. done.
Qed.

End Invariant.

(** ** The whole program *)

Lemma writePuzzles_Done_inv (can_create : list ascii → bool)
    (ps : list puzzle) (fs fs' : files) :
  writePuzzles can_create ps fs = Done fs' →
  ∀ p, p ∈ ps → can_create (puzzle_file p) = true.
Proof.
  revert fs. induction ps as [|q ps IH]; intros fs Hrun p Hp.
  { by apply elem_of_nil in Hp. }
  cbn [writePuzzles] in Hrun.
  destruct (can_create (puzzle_file q)) eqn:Hq.
  - destruct (writePuzzle_file can_create q fs Hq) as (fs1 & H1 & _).
    rewrite H1 in Hrun. cbn [mbind result_bind] in Hrun.
    apply elem_of_cons in Hp as [->|Hp]; [done|]. by eapply IH.
  - by rewrite (writePuzzle_fatal can_create q fs Hq) in Hrun.
Qed.

Lemma elem_of_flat_map_puzzles allWords (vs : list (list ascii)) p :
  p ∈ flat_map (puzzles_of allWords) vs
  ↔ ∃ v, v ∈ vs ∧ matchVariant allWords v = Done (Some p).
Proof.
  rewrite list_elem_of_In, in_flat_map. split.
  - intros (v & Hv & Hp). exists v.
    by rewrite list_elem_of_In, <- elem_of_puzzles_of, list_elem_of_In.
  - intros (v & Hv & Hp). exists v.
    by rewrite <- !list_elem_of_In, elem_of_puzzles_of.
Qed.


Section Completion.

Variable TrimSpace : list ascii → list ascii.
Variable can_create : list ascii → bool.
Variables numLetters parallel : Z.
Variable wordsFile : option file.
Variables out allWords : list (list ascii).
Variable fuel0 : nat.

Hypothesis Hn : (1 ≤ numLetters ≤ int_max)%Z.
Hypothesis Hfuel : (Z.to_nat numLetters ≤ fuel0)%nat.
Hypothesis Hgen : genAllStrings fuel0 numLetters = Done out.
Hypothesis Hload : genAllWords TrimSpace numLetters wordsFile = Done allWords.
Hypothesis Hpar : (parallel ≤ int_max)%Z.
Hypothesis Hcreate :
  ∀ v p, v ∈ rotate out → matchVariant allWords v = Done (Some p) →
         can_create (puzzle_file p) = true.

#[local] Abbreviation step' :=
  (step TrimSpace can_create numLetters parallel wordsFile).
#[local] Abbreviation runs' :=
  (runs TrimSpace can_create numLetters parallel wordsFile).

Lemma runs_one st ev st' : step' st ev st' → runs' st [ev] st'.
Proof. intros H. eapply runs_cons; [done|apply runs_nil]. Qed.

(** [main] starts its workers, one after the other. *)
Lemma run_go_workers (g : gen_state) (r : rot_state) (d : list (list ascii))
    (c : bool) (w : writer_state) (fs : files) (k : nat) :
  (Z.of_nat k ≤ Z.max 0 parallel)%Z →
  runs' (mkProg (PcWorkers 0) g r d [] c w fs)
        (replicate k EvGoWorker)
        (mkProg (PcWorkers (Z.of_nat k)) g r d (replicate k Idle) c w fs).
Proof.
  induction k as [|k IH]; intros Hk; [apply runs_nil|].
  rewrite !replicate_S_end.
  eapply runs_app; [apply IH; lia|]. apply runs_one.
  replace (Z.of_nat (S k)) with (int_add (Z.of_nat k) 1)
    by (rewrite int_add_small by (unfold int_min; lia); lia).
  apply (step_go_worker _ _ _ _ _
           (mkProg (PcWorkers (Z.of_nat k)) g r d (replicate k Idle) c w fs));
    [done|lia].
Qed.

(** The first worker takes the variants that [rotate] has to send, one
    after the other, and hands each puzzle to the writer. *)
Lemma run_variants (i : Z) (g : gen_state) (c : bool) (ws : list worker)
    (vs : list (list ascii)) (fs : files) :
  ws !! 0%nat = Some Idle →
  (∀ v, v ∈ vs → v ∈ rotate out) →
  ∃ tr fs',
    runs' (mkProg (PcWorkers i) g (RotOn vs) allWords ws c WrOn fs) tr
          (mkProg (PcWorkers i) g (RotOn []) allWords ws c WrOn fs').
Proof.
  intros Hw. revert fs. induction vs as [|v vs IH]; intros fs Hvs.
  { exists [], fs. apply runs_nil. }
  assert (v ∈ rotate out) as Hv by (apply Hvs; left).
  destruct (pipeline_variants fuel0 numLetters out v Hn Hfuel Hgen Hv)
    as (_ & Hne & _).
  destruct v as [|c0 v']; [done|].
  destruct (matchVariant_Done allWords (c0 :: v') c0 eq_refl) as [r Hr].
  pose (st0 := mkProg (PcWorkers i) g (RotOn ((c0 :: v') :: vs)) allWords ws
                 c WrOn fs).
  assert (step' st0 (EvVariant 0 (c0 :: v'))
            (set_rot (RotOn vs)
               (set_workers (<[0%nat := after_match r]> ws) st0))) as H1.
  { apply step_variant; [split; done|done|done|done]. }
  destruct r as [p|].
  - destruct (writePuzzle_file can_create p fs) as (fs1 & Hfs1 & _).
    { by eapply Hcreate. }
    destruct (IH fs1) as (tr & fs' & Hrun).
    { intros u Hu. apply Hvs. by right. }
    exists (EvVariant 0 (c0 :: v') :: EvPuzzle 0 p :: tr), fs'.
    eapply runs_cons; [exact H1|].
    eapply runs_cons; [|exact Hrun].
    pose (st1 := set_rot (RotOn vs)
                   (set_workers (<[0%nat := after_match (Some p)]> ws) st0)).
    replace (mkProg (PcWorkers i) g (RotOn vs) allWords ws c WrOn fs1)
      with (set_disk fs1
              (set_workers (<[0%nat := Idle]> (workers st1)) st1)).
    + apply step_puzzle; [split; done| |done|exact Hfs1].
      cbn. apply list_lookup_insert_eq. by eapply lookup_lt_Some.
    + unfold set_disk, set_workers. cbn. f_equal.
      rewrite list_insert_insert_eq. by apply list_insert_id.
  - destruct (IH fs) as (tr & fs' & Hrun).
    { intros u Hu. apply Hvs. by right. }
    exists (EvVariant 0 (c0 :: v') :: tr), fs'.
    eapply runs_cons; [exact H1|].
    unfold set_rot, set_workers, st0. cbn.
    rewrite list_insert_id by done. exact Hrun.
Qed.

(** The generator sends what is left of its combinations, each of them
    rotated and matched before the next one. *)
Lemma run_combinations (i : Z) (c : bool) (ws : list worker) (m sent : nat)
    (fs : files) :
  ws !! 0%nat = Some Idle →
  (sent + m = length out)%nat →
  ∃ tr fs',
    runs' (mkProg (PcWorkers i) (GenOn sent) (RotOn []) allWords ws c WrOn fs)
          tr
          (mkProg (PcWorkers i) (GenOn (length out)) (RotOn []) allWords ws c
             WrOn fs').
Proof.
  intros Hw. revert sent fs. induction m as [|m IH]; intros sent fs Hm.
  { exists [], fs. replace (length out) with sent by lia. apply runs_nil. }
  destruct (lookup_lt_is_Some_2 out sent) as [s Hs]; [lia|].
  destruct (run_variants i (GenOn (S sent)) c ws (rotations s) fs Hw)
    as (tr1 & fs1 & Hrun1).
  { intros v Hv. unfold rotate. rewrite list_elem_of_In, in_flat_map.
    exists s. rewrite <- !list_elem_of_In. split; [|done].
    by eapply list_elem_of_lookup_2. }
  destruct (IH (S sent) fs1) as (tr2 & fs' & Hrun2); [lia|].
  exists (EvCombination s :: tr1 ++ tr2), fs'.
  eapply runs_cons; [|eapply runs_app; [exact Hrun1|exact Hrun2]].
  apply (step_combination _ _ _ _ _
           (mkProg (PcWorkers i) (GenOn sent) (RotOn []) allWords ws c WrOn fs)
           sent fuel0 out s); [split; done|done..].
Qed.

(** With [rotated] closed, the workers return. *)
Lemma run_workers_return (i : Z) (g : gen_state) (d : list (list ascii))
    (c : bool) (w : writer_state) (fs : files) (m j : nat) :
  ∃ tr,
    runs' (mkProg (PcWorkers i) g RotClosed d
             (replicate j Exited ++ replicate m Idle) c w fs) tr
          (mkProg (PcWorkers i) g RotClosed d (replicate (j + m) Exited)
             c w fs).
Proof.
  revert j. induction m as [|m IH]; intros j.
  { exists []. cbn [replicate]. rewrite app_nil_r, Nat.add_0_r.
    apply runs_nil. }
  destruct (IH (S j)) as [tr Hrun].
  exists (EvWorkerReturn j :: tr).
  replace (j + S m)%nat with (S j + m)%nat by lia.
  eapply runs_cons; [|exact Hrun].
  pose (st0 := mkProg (PcWorkers i) g RotClosed d
                 (replicate j Exited ++ replicate (S m) Idle) c w fs).
  replace (mkProg (PcWorkers i) g RotClosed d
             (replicate (S j) Exited ++ replicate m Idle) c w fs)
    with (set_workers (<[j := Exited]> (workers st0)) st0).
  - apply step_worker_return; [split; done|done|].
    cbn. rewrite lookup_app_r by (rewrite length_replicate; lia).
      rewrite length_replicate, Nat.sub_diag. done.
  - unfold set_workers, st0. cbn. f_equal.
    rewrite insert_app_r_alt by (rewrite length_replicate; lia).
    rewrite length_replicate, Nat.sub_diag. cbn.
    rewrite cons_middle, app_assoc, <- replicate_S_end. done.
Qed.

(** After its workers have returned, [main] closes [puzzles], the writer
    returns, and [main] returns. *)
Lemma run_finish (i : Z) (g : gen_state) (r : rot_state)
    (d : list (list ascii)) (ws : list worker) (fs : files) :
  (parallel ≤ i)%Z → Forall (λ w, w = Exited) ws →
  runs' (mkProg (PcWorkers i) g r d ws false WrOn fs)
        [EvClosePuzzles; EvWriterReturn; EvReturn]
        (mkProg PcReturned g r d ws true WrReturned fs).
Proof.
  intros Hi Hws.
  eapply runs_cons; [by apply (step_close_puzzles _ _ _ _ _ _ i)|].
  eapply runs_cons; [apply step_writer_return; [split; done|done..]|].
  eapply runs_cons; [by apply step_return|]. apply runs_nil.
Qed.

Lemma run_to_workers (fs : files) :
  runs' (start fs) [EvGoGenAllStrings; EvGoRotate; EvGoWritePuzzles; EvLoaded]
        (mkProg (PcWorkers 0) (GenOn 0) (RotOn []) allWords [] false WrOn fs).
Proof.
  eapply runs_cons; [by apply step_go_genAllStrings|].
  eapply runs_cons; [by apply step_go_rotate|].
  eapply runs_cons; [by apply step_go_writePuzzles|].
  eapply runs_cons; [by apply (step_genAllWords _ _ _ _ _ _ allWords)|].
  apply runs_nil.
Qed.

Lemma complete_run (fs : files) :
  ∃ tr st, runs' (start fs) tr st ∧ pc st = PcReturned.
Proof.
  destruct (decide (parallel ≤ 0)%Z) as [Hp|Hp].
  - eexists _, _. split.
    + eapply runs_app; [apply run_to_workers|].
      apply run_finish; [done|apply Forall_nil_2].
    + done.
  - set (k := Z.to_nat parallel).
    assert (replicate k Idle !! 0%nat = Some Idle) as Hw.
    { apply lookup_replicate_2. lia. }
    destruct (run_combinations (Z.of_nat k) false (replicate k Idle)
                (length out) 0 fs Hw eq_refl) as (tr1 & fs' & Hrun1).
    destruct (run_workers_return (Z.of_nat k) GenClosed allWords false WrOn
                fs' k 0) as (tr2 & Hrun2).
    eexists _, _. split.
    + eapply runs_app; [apply run_to_workers|].
      eapply runs_app; [apply (run_go_workers _ _ _ _ _ _ k); lia|].
      eapply runs_app; [exact Hrun1|].
      eapply runs_cons.
      { apply (step_gen_close _ _ _ _ _ _ (length out) fuel0 out);
          [split; done|done..]. }
      eapply runs_cons.
      { apply step_rot_close; [split; done|done..]. }
      eapply runs_app; [exact Hrun2|].
      apply run_finish; [cbn; lia|]. apply Forall_replicate. done.
    + done.
Qed.

End Completion.

(** Two letters, three workers and the dictionary over a and b. *)
Example genAllStrings_2 :
  genAllStrings 2 2 = Done (gen_level alphabet (Z.to_nat 2 - 1)).
Proof. apply genAllStrings_level; [unfold int_max; lia|simpl; lia]. Qed.

Example genAllWords_dict_ab :
  genAllWords TrimSpace_ascii 2 (Some (mkFile (unlines dict_ab) EOF))
  = Done dict_ab.
Proof. by vm_compute. Qed.

Example complete_run_ab :
  ∃ tr st,
    runs TrimSpace_ascii (λ _, true) 2 3
      (Some (mkFile (unlines dict_ab) EOF)) (start ∅) tr st
    ∧ pc st = PcReturned.
Proof.
  apply (complete_run TrimSpace_ascii (λ _, true) 2 3
           (Some (mkFile (unlines dict_ab) EOF))
           (gen_level alphabet (Z.to_nat 2 - 1)) dict_ab 2).
  - unfold int_max; lia.
  - simpl; lia.
  - exact genAllStrings_2.
  - exact genAllWords_dict_ab.
  - unfold int_max; lia.
  - done.
Qed.


Section Progress.

Variable TrimSpace : list ascii → list ascii.
Variable can_create : list ascii → bool.
Variables numLetters parallel : Z.
Variable wordsFile : option file.

#[local] Abbreviation step' :=
  (step TrimSpace can_create numLetters parallel wordsFile).
#[local] Abbreviation runs' :=
  (runs TrimSpace can_create numLetters parallel wordsFile).

Lemma genAllWords_Fatal_unreadable (f : option file) :
  genAllWords TrimSpace numLetters f = Fatal → unreadable f.
Proof.
  destruct f as [[text e]|]; [|done].
  unfold genAllWords, unreadable. cbn [data ending].
  destruct (lines_decompose TrimSpace text) as (ls & last & -> & Hls & Hlast).
  rewrite read_loop_lines by (done || lia).
  by destruct e.
Qed.

Lemma matchVariant_cases allWords v :
  matchVariant allWords v = Panic ∨ ∃ r, matchVariant allWords v = Done r.
Proof.
  destruct v as [|c v].
  - rewrite matchVariant_nil. destruct allWords; [right; by eexists|by left].
  - right. by apply (matchVariant_Done allWords (c :: v) c).
Qed.

Lemma workers_cases (ws : list worker) :
  Forall (λ w, w = Exited) ws
  ∨ ∃ i, ws !! i = Some Idle ∨ ∃ p, ws !! i = Some (Holding p).
Proof.
  induction ws as [|w ws [IH|[i IH]]].
  - left. constructor.
  - destruct w as [|p|].
    + right. exists 0%nat. by left.
    + right. exists 0%nat. right. by exists p.
    + left. by constructor.
  - right. by exists (S i).
Qed.

(** A worker that waits with a puzzle hands it to the writer, which writes
    it or ends the process. *)
Lemma holding_step st i p :
  alive st → workers st !! i = Some (Holding p) → writer st = WrOn →
  ∃ ev st', step' st ev st'.
Proof.
  intros Ha Hi Hw. destruct (can_create (puzzle_file p)) eqn:Hc.
  - destruct (writePuzzle_file can_create p (disk st) Hc) as (fs1 & H1 & _).
    eexists _, _. by eapply step_puzzle.
  - eexists _, _. eapply step_puzzle_fatal; [done..|].
    by apply writePuzzle_fatal.
Qed.

(** While a worker waits for a variant, one of the generator, [rotate] and
    the worker can go on. *)
Lemma idle_step fuel out tr st i :
  genAllStrings fuel numLetters = Done out →
  alive st → flow_inv out tr st → gen st ≠ GenOff → rot st ≠ RotOff →
  workers st !! i = Some Idle →
  ∃ ev st', step' st ev st'.
Proof.
  intros Hgen Ha Hflow Hg Hr Hi. unfold flow_inv in Hflow.
  destruct (rot st) as [|[|v vs]|] eqn:Hrot; [done| | |].
  - destruct (gen st) as [|sent|] eqn:Hgs; [done| |].
    + destruct Hflow as [Hle _].
      destruct (decide (sent < length out)%nat) as [Hlt|Hge].
      * destruct (lookup_lt_is_Some_2 out sent Hlt) as [s Hs].
        eexists _, _. by eapply step_combination.
      * eexists _, _. eapply step_gen_close; [done..|lia].
    + eexists _, _. by eapply step_rot_close.
  - destruct (matchVariant_cases (dict st) v) as [Hp|[r Hd]].
    + eexists _, _. by eapply step_variant_panic.
    + eexists _, _. by eapply step_variant.
  - eexists _, _. by eapply step_worker_return.
Qed.

Lemma inv_progress (fuel : nat) (out allWords : list (list ascii))
    (fs : files) (tr : list event) (st : prog) :
  genAllStrings fuel numLetters = Done out →
  genAllWords TrimSpace numLetters wordsFile = Done allWords →
  program_inv can_create parallel out allWords fs tr st →
  alive st → ∃ ev st', step' st ev st'.
Proof.
  intros Hgen Hload [Hd|(Hflow & Hmain & Hdisk & Hperm & Hex)] Ha.
  { by destruct Ha. }
  unfold main_inv in Hmain.
  destruct (pc st) as [| | | |i| | |] eqn:Hpc.
  - eexists _, _. by apply step_go_genAllStrings.
  - eexists _, _. by apply step_go_rotate.
  - eexists _, _. by apply step_go_writePuzzles.
  - eexists _, _. by eapply step_genAllWords.
  - destruct Hmain as (Hg & Hr & Hw & Hcl & Hdict & Hi & Hle).
    destruct (decide (i < parallel)%Z) as [Hlt|Hge].
    { eexists _, _. by eapply step_go_worker. }
    destruct (workers_cases (workers st)) as [Hall|[j [Hj|[p Hj]]]].
    + eexists _, _. eapply step_close_puzzles; [done|lia|done].
    + by eapply idle_step.
    + by eapply holding_step.
  - destruct Hmain as (Hg & Hr & Hw & Hcl & _).
    destruct (writer st) eqn:Hwr; [done| |].
    + eexists _, _. by eapply step_writer_return.
    + eexists _, _. by eapply step_return.
  - destruct Ha as [Ha _]. done.
  - destruct Ha as [_ Ha]. done.
Qed.

(** With an unreadable words file [main] goes on to [genAllWords], which
    ends the process. *)
Lemma fatal_progress (fs : files) (tr : list event) (st : prog) :
  genAllWords TrimSpace numLetters wordsFile = Fatal →
  runs' (start fs) tr st → alive st → ∃ ev st', step' st ev st'.
Proof.
  intros Hf Hruns Ha.
  pose proof (genAllWords_Fatal_unreadable _ Hf) as Hun.
  assert (before_matching fs (start fs)) as Hstart.
  { split; [by left|done]. }
  destruct (runs_before_matching _ _ _ _ _ Hun fs _ _ _ Hruns Hstart)
    as [[[H|[H|[H|[H|H]]]] _] _].
  - eexists _, _. by apply step_go_genAllStrings.
  - eexists _, _. by apply step_go_rotate.
  - eexists _, _. by apply step_go_writePuzzles.
  - eexists _, _. by apply step_genAllWords_fatal.
  - destruct Ha as [_ Ha]. done.
Qed.

End Progress.





Section NoWorker.

Variable TrimSpace : list ascii → list ascii.
Variable can_create : list ascii → bool.
Variables numLetters parallel : Z.
Variable wordsFile : option file.
Variable fs : files.

Hypothesis Hpar : (parallel ≤ 0)%Z.

#[local] Abbreviation step' :=
  (step TrimSpace can_create numLetters parallel wordsFile).
#[local] Abbreviation runs' :=
  (runs TrimSpace can_create numLetters parallel wordsFile).

Lemma step_no_worker tr st ev st' :
  no_worker_inv fs tr st → step' st ev st' → no_worker_inv fs (tr ++ [ev]) st'.
Proof.
  intros (Hw & Hd & Hv & Hpw & Hi) Hstep. unfold no_worker_inv.
  rewrite variants_of_snoc, puzzles_written_snoc, Hv, Hpw.
  destruct Hstep; cbn [workers disk pc set_pc set_gen set_rot set_dict
    set_workers set_closed set_writer set_disk app];
    try (rewrite Hw in *; done);
    try (split_and!; [done..|]; intros j Hj; first [done|by apply Hi]).
  - split_and!; [done..|]. intros j [= <-]. done.
  - specialize (Hi _ H). lia.
Qed.

Lemma runs_no_worker tr st :
  runs' (start fs) tr st → no_worker_inv fs tr st.
Proof.
  apply (runs_ind_snoc TrimSpace can_create numLetters parallel wordsFile
           (λ tr st, no_worker_inv fs tr st)).
  - unfold no_worker_inv. by split_and!.
  - intros tr' st1 ev st2 _ Hinv Hstep. by eapply step_no_worker.
Qed.

End NoWorker.



(** ** The cleanup program *)

Section CleanupProps.

Context {FS Err : Type}.
Variable Glob : list ascii → FS → list (list ascii) + Err.
Variable RemoveAll : list ascii → FS → FS * option Err.

Lemma RemoveGlob_loop_app pre rest s s1 :
  RemoveGlob_loop FS Err RemoveAll pre s = (s1, None) →
  RemoveGlob_loop FS Err RemoveAll (pre ++ rest) s
  = RemoveGlob_loop FS Err RemoveAll rest s1.
Proof.
  revert s. induction pre as [|item pre IH]; intros s Hpre.
  - by injection Hpre as ->.
  - cbn [app RemoveGlob_loop] in *.
    destruct (RemoveAll item s) as [s' [e|]]; [done|by apply IH].
Qed.

Lemma RemoveGlob_loop_error contents s s' e :
  RemoveGlob_loop FS Err RemoveAll contents s = (s', Some e) →
  ∃ pre item post s1,
    contents = pre ++ item :: post
    ∧ RemoveGlob_loop FS Err RemoveAll pre s = (s1, None)
    ∧ RemoveAll item s1 = (s', Some e).
Proof.
  revert s. induction contents as [|item contents IH]; intros s Hrun;
    [done|].
  cbn [RemoveGlob_loop] in Hrun.
  destruct (RemoveAll item s) as [s0 [e0|]] eqn:Hitem.
  - injection Hrun as -> ->. by exists [], item, contents, s.
  - destruct (IH s0 Hrun) as (pre & it & post & s1 & -> & Hpre & Hit).
    exists (item :: pre), it, post, s1. split_and!; [done| |done].
    cbn [RemoveGlob_loop]. by rewrite Hitem.
Qed.

End CleanupProps.

(** X21: RemoveGlob stops at the first match that cannot be removed and
    returns its error: the matches before it stay removed, and the matches
    after it, whatever they are, are not passed to os.RemoveAll.  It
    returns an error of the loop only in this way. *)
Theorem RemoveGlob_first_error (FS Err : Type)
    (Glob : list ascii → FS → list (list ascii) + Err)
    (RemoveAll : list ascii → FS → FS * option Err)
    (path : list ascii) (contents : list (list ascii)) (s s' : FS) (e : Err) :
  Glob path s = inl contents →
  RemoveGlob FS Err Glob RemoveAll path s = (s', Some e)
  ↔ ∃ pre item post s1,
      contents = pre ++ item :: post
      ∧ RemoveGlob_loop FS Err RemoveAll pre s = (s1, None)
      ∧ RemoveAll item s1 = (s', Some e).
Proof.
  intros HG. unfold RemoveGlob. rewrite HG. split.
  - apply RemoveGlob_loop_error.
  - intros (pre & item & post & s1 & -> & Hpre & Hitem).
    rewrite (RemoveGlob_loop_app RemoveAll pre (item :: post) s s1 Hpre).
    cbn [RemoveGlob_loop]. by rewrite Hitem.
Qed.

Lemma RemoveGlob_first_error_witness :
  RemoveGlob _ _ Glob_all RemoveAll_but_b (str "*")
    [str "a"; str "b"; str "c"]
  = ([str "b"; str "c"], Some ()).
Proof.
  apply (RemoveGlob_first_error _ _ Glob_all RemoveAll_but_b (str "*")
           [str "a"; str "b"; str "c"]); [reflexivity|].
  exists [str "a"], (str "b"), [str "c"], [str "b"; str "c"].
  split_and!; by vm_compute.
Defined.

(** X22: the cleanup program panics exactly when it is run without an
    argument (os.Args[1] is out of range), before anything is removed; and
    when the pattern matches nothing it removes nothing and ends as after
    a removal, without an error. *)
Theorem cleanup_main_edges (FS Err : Type)
    (Glob : list ascii → FS → list (list ascii) + Err)
    (RemoveAll : list ascii → FS → FS * option Err)
    (args : list (list ascii)) (s : FS) :
  (cleanup_main FS Err Glob RemoveAll args s = Panic ↔ (length args < 2)%nat)
  ∧ (∀ path, args !! 1%nat = Some path → Glob path s = inl [] →
       cleanup_main FS Err Glob RemoveAll args s = Done s).
Proof.
  unfold cleanup_main. split.
  - destruct (args !! 1%nat) as [path|] eqn:Hargs.
    + apply lookup_lt_Some in Hargs.
      destruct (RemoveGlob _ _ _ _ _ _) as [s' [e|]]; split; (done || lia).
    + apply lookup_ge_None in Hargs. split; [lia|done].
  - intros path -> HG. unfold RemoveGlob. by rewrite HG.
Qed.

Lemma cleanup_main_edges_witness :
  cleanup_main _ _ Glob_all RemoveAll_but_b [str "cleanup"] [str "a"] = Panic
  ∧ cleanup_main _ _ Glob_all RemoveAll_but_b [str "cleanup"; str "*"] []
    = Done [].
Proof.
  split.
  - apply (cleanup_main_edges _ _ Glob_all RemoveAll_but_b [str "cleanup"]
             [str "a"]).
    simpl. lia.
  - by apply (proj2 (cleanup_main_edges _ _ Glob_all RemoveAll_but_b
                       [str "cleanup"; str "*"] []) (str "*")).
Defined.
